(** * MISHPOSE: the pitch/key transposer and the MIDI byte-stream encoder

    A shallow embedding of [client/src/services/musicProcessor.ts]
    (class [MusicProcessor]) and the properties of its transposition engine
    and of its Standard MIDI File encoder.

    Conventions of the embedding.
    - A JavaScript [number] that holds an integer is a [Z]; every number the
      modelled functions compute from integer arguments is again an integer
      (the rounding of doubles beyond 2^53 is not modelled).
      [%] is the truncating remainder [Z.rem], [Math.floor (a / 12)] is the
      flooring quotient [a `div` 12].
    - [undefined] is [None]: reading an array outside its range gives
      [None].  An object literal used as a dictionary is the finite map of
      its own keys together with the members every object inherits
      ([constructor], [toString], ...): [JS.get] reads a key through both.
    - Where the code adds a function or an object to a number the result is
      a string that is the text of no number; [JS.Value] keeps such results
      apart from the numbers, and a [Z] stands for its number where a
      [JS.Value] is expected.
    - A thrown exception is the [Throw] of a [Res] result; the first one
      ends the function that raised it.
    - The parsed XML tree is represented by its MusicXML schema: records for
      the elements the code queries, an [option] for each element that may be
      absent, and the integer an element's text denotes for the elements read
      through [parseInt] and written through [toString]. *)

From Stdlib Require Import ZArith Ascii.
From stdpp Require Import base option list strings gmap.

Local Open Scope string_scope.
Local Open Scope list_scope.
Local Open Scope Z_scope.

(** ** JavaScript primitives *)

Module JS.

(** [o || 0] for a possibly undefined number: [undefined] and [0] are
    both falsy. *)
Definition or0 (o : option Z) : Z :=
  match o with
  | Some v => if decide (v = 0) then 0 else v
  | None => 0
  end.

(** [a[i]] for an array [a] and an integer-valued number [i]. *)
Definition index {A} (a : list A) (i : Z) : option A :=
  if decide (0 ≤ i) then a !! Z.to_nat i else None.

(** [Math.max] and [Math.min] on integers. *)
Definition max (a b : Z) : Z := if decide (a < b) then b else a.
Definition min (a b : Z) : Z := if decide (b < a) then b else a.

(** [ToInt32], applied to the left operand of [>>]. *)
Definition toInt32 (z : Z) : Z := (z + 2 ^ 31) `mod` 2 ^ 32 - 2 ^ 31.

(** [a >> k] (sign-propagating shift of the 32-bit value). *)
Definition sar (a k : Z) : Z := Z.shiftr (toInt32 a) k.

(** [a & b]: both operands go through [ToInt32]. *)
Definition band (a b : Z) : Z := Z.land (toInt32 a) (toInt32 b).

(** The members every object inherits from [Object.prototype]. *)
Definition inherited : list string :=
  [ "constructor"; "hasOwnProperty"; "isPrototypeOf";
    "propertyIsEnumerable"; "toLocaleString"; "toString"; "valueOf";
    "__proto__"; "__defineGetter__"; "__defineSetter__";
    "__lookupGetter__"; "__lookupSetter__" ].

(** What [table[key]] is, for an object literal [table] whose own
    properties are numbers: an own property, an inherited member (a function,
    or the prototype object for [__proto__]), or [undefined]. *)
Inductive Property :=
  | Own (v : Z)
  | Member
  | Undefined.

Definition get (table : gmap string Z) (key : string) : Property :=
  match table !! key with
  | Some v => Own v
  | None => if decide (key ∈ inherited) then Member else Undefined
  end.

(** The values the arithmetic of the code yields: a number; a function or
    object (an inherited member); or the string that [+] makes as soon as
    one operand is a function, an object or such a string.  That string
    holds the source text of a function or [[object Object]], so it is the
    text of no number. *)
Inductive Value :=
  | Num (z : Z)
  | Obj
  | Str.

(** [p || dflt]: [undefined] and [0] are falsy, a function or object is
    truthy. *)
Definition or (p : Property) (dflt : Z) : Value :=
  match p with
  | Own v => if decide (v = 0) then Num dflt else Num v
  | Member => Obj
  | Undefined => Num dflt
  end.

(** [a + b]. *)
Definition add (a b : Value) : Value :=
  match a, b with
  | Num x, Num y => Num (x + y)
  | _, _ => Str
  end.

(** Storing a value in a [Uint8Array] element ([ToUint8]): a number modulo
    256; anything whose numeric conversion is NaN becomes 0. *)
Definition toUint8 (v : Value) : Z :=
  match v with
  | Num z => z `mod` 256
  | Obj | Str => 0
  end.

End JS.

Coercion JS.Num : Z >-> JS.Value.

(** ** Pitch arithmetic *)

(** [noteMap] of [noteToMidi]. *)
Definition noteMap : gmap string Z :=
  <["C" := 0]> (<["D" := 2]> (<["E" := 4]> (<["F" := 5]>
  (<["G" := 7]> (<["A" := 9]> (<["B" := 11]> ∅)))))).

(** [noteToMidi(step, octave, alter = 0)]. *)
Definition noteToMidi (step : string) (octave alter : Z) : JS.Value :=
  let baseNote := JS.or (JS.get noteMap step) 0 in
  JS.add (JS.add ((octave + 1) * 12) baseNote) alter.

(** The object [midiToNote] returns; [step] and [alter] are array reads and
    may be [undefined]. *)
Record NoteRep := mkNoteRep {
  rep_step : option string;
  rep_octave : Z;
  rep_alter : option Z
}.

Definition noteNames : list string :=
  ["C"; "C"; "D"; "D"; "E"; "F"; "F"; "G"; "G"; "A"; "A"; "B"].

Definition alterations : list Z :=
  [0; 1; 0; 1; 0; 0; 1; 0; 1; 0; 1; 0].

(** [midiToNote(midiNote)]. *)
Definition midiToNote (midiNote : Z) : NoteRep :=
  let octave := midiNote `div` 12 - 1 in
  let noteIndex := midiNote `rem` 12 in
  {| rep_step := JS.index noteNames noteIndex;
     rep_octave := octave;
     rep_alter := JS.index alterations noteIndex |}.

(** [semitoneToFifthsMap] of [transposeKeySignature]. *)
Definition semitoneToFifthsMap : gmap Z Z :=
  <[0 := 0]> (<[1 := 7]> (<[2 := 2]> (<[3 := -3]> (<[4 := 4]>
  (<[5 := -1]> (<[6 := 6]> (<[7 := 1]> (<[8 := -4]> (<[9 := 3]>
  (<[10 := -2]> (<[11 := 5]> (<[12 := 0]> ∅)))))))))))).

(** [transposeKeySignature(fifths, semitones)]. *)
Definition transposeKeySignature (fifths semitones : Z) : Z :=
  let normalizedSemitones := ((semitones `rem` 12) + 12) `rem` 12 in
  let fifthsChange := JS.or0 (semitoneToFifthsMap !! normalizedSemitones) in
  let newFifths := fifths + fifthsChange in
  JS.max (-7) (JS.min 7 newFifths).

(** ** Exceptions *)

(** The only exception the modelled code can raise: [alter.toString()] on
    an [undefined] [alter]. *)
Inductive Exn := TypeError.

Inductive Res (A : Type) :=
  | Ok (a : A)
  | Throw (e : Exn).
Arguments Ok {A} a.
Arguments Throw {A} e.

(** Sequencing: an exception skips the rest of the computation. *)
#[global] Instance Res_bind : MBind Res := λ A B k r,
  match r with
  | Ok a => k a
  | Throw e => Throw e
  end.

(** [xs.forEach(f)] where [f] rewrites each node and may throw: the nodes
    are visited in document order and the first exception ends the loop. *)
Fixpoint forEach {A} (f : A → Res A) (xs : list A) : Res (list A) :=
  match xs with
  | [] => Ok []
  | x :: rest => y ← f x; ys ← forEach f rest; Ok (y :: ys)
  end.

(** ** The document tree *)

(** [<pitch>], with the text of [<step>] and the integers written in
    [<alter>] and [<octave>]; [None] is an absent child element. *)
Record Pitch := mkPitch {
  p_step : option string;
  p_alter : option Z;
  p_octave : option Z
}.

(** [<note>]: an optional [<pitch>], [<duration>] and [<type>]. *)
Record Note := mkNote {
  n_pitch : option Pitch;
  n_duration : Z;
  n_type : string
}.

(** [<key>] with its optional [<fifths>]. *)
Record Key := mkKey { k_fifths : option Z }.

Record Time := mkTime { t_beats : Z; t_beat_type : Z }.

Record Clef := mkClef { c_sign : string; c_line : Z }.

(** [<attributes>]. *)
Record Attributes := mkAttributes {
  a_divisions : option Z;
  a_key : option Key;
  a_time : option Time;
  a_clef : option Clef
}.

(** [<measure number=...>]. *)
Record Measure := mkMeasure {
  m_number : Z;
  m_attributes : option Attributes;
  m_notes : list Note
}.

(** [<score-partwise>] with one part. *)
Record Document := mkDocument {
  d_title : string;
  d_composer : string;
  d_part_name : string;
  d_measures : list Measure
}.

(** [xmlDoc.querySelectorAll('note')]: every note, in document order. *)
Definition allNotes (D : Document) : list Note :=
  flat_map m_notes (d_measures D).

(** [text || dflt] for an element's text. *)
Definition textOr (text dflt : string) : string :=
  if decide (text = "") then dflt else text.

(** ** transposeMusicXML *)

(** The body of [pitches.forEach(pitch => ...)]. *)
Definition transposePitch (semitones : JS.Value) (pitch : Pitch)
  : Res Pitch :=
  match p_step pitch, p_octave pitch with
  | Some stepText, Some currentOctave =>
      let currentStep := textOr stepText "C" in
      let currentAlter := default 0 (p_alter pitch) in
      let midiNote := noteToMidi currentStep currentOctave currentAlter in
      match JS.add midiNote semitones with
      | JS.Num transposedMidi =>
          let r := midiToNote transposedMidi in
          (* stepElement.textContent = step; an undefined step clears the
             text *)
          let newStep := Some (default "" (rep_step r)) in
          let newOctave := Some (rep_octave r) in
          match rep_alter r with
          | None => Throw TypeError (* alter !== 0, then alter.toString() *)
          | Some alter =>
              if decide (alter ≠ 0)
              then Ok (mkPitch newStep (Some alter) newOctave)
              else Ok (mkPitch newStep None newOctave)
          end
      | JS.Obj | JS.Str =>
          (* midiToNote gets a string: its quotient and its remainder by 12
             are NaN, both array reads are undefined, and alter.toString()
             throws as above *)
          Throw TypeError
      end
  | _, _ => Ok pitch
  end.

Definition transposeNote (semitones : JS.Value) (note : Note) : Res Note :=
  match n_pitch note with
  | Some pitch =>
      pitch' ← transposePitch semitones pitch;
      Ok (mkNote (Some pitch') (n_duration note) (n_type note))
  | None => Ok note
  end.

Definition transposeMeasure (semitones : JS.Value) (m : Measure)
  : Res Measure :=
  notes' ← forEach (transposeNote semitones) (m_notes m);
  Ok (mkMeasure (m_number m) (m_attributes m) notes').

(** The body of [keyElements.forEach(keyElement => ...)]. *)
Definition transposeKey (semitones : JS.Value) (k : Key) : Key :=
  match k_fifths k with
  | Some currentFifths =>
      match semitones with
      | JS.Num s => mkKey (Some (transposeKeySignature currentFifths s))
      | JS.Obj | JS.Str =>
          (* in transposeKeySignature the normalised offset is NaN, the map
             has no such key, the change is 0 and only the clamp acts *)
          mkKey (Some (JS.max (-7) (JS.min 7 (currentFifths + 0))))
      end
  | None => k
  end.

Definition transposeAttributes (semitones : JS.Value) (a : Attributes)
  : Attributes :=
  mkAttributes (a_divisions a) (transposeKey semitones <$> a_key a)
    (a_time a) (a_clef a).

Definition transposeMeasureKey (semitones : JS.Value) (m : Measure)
  : Measure :=
  mkMeasure (m_number m) (transposeAttributes semitones <$> m_attributes m)
    (m_notes m).

(** [transposeMusicXML(musicXML, semitones)]: first every [<pitch>], then
    every [<key>]. *)
Definition transposeMusicXML (D : Document) (semitones : JS.Value)
  : Res Document :=
  measures' ← forEach (transposeMeasure semitones) (d_measures D);
  Ok (mkDocument (d_title D) (d_composer D) (d_part_name D)
        (transposeMeasureKey semitones <$> measures')).

(** ** generateMIDI *)

(** The MIDI note number [generateMIDI] reads from a [<pitch>]. *)
Definition pitchMidi (pitch : Pitch) : JS.Value :=
  let step := textOr (default "" (p_step pitch)) "C" in
  let octave := default 4 (p_octave pitch) in
  let alter := default 0 (p_alter pitch) in
  noteToMidi step octave alter.

(** What the body of [notes.forEach(note => ...)] pushes on [trackData]. *)
Definition noteEvents (note : Note) : list JS.Value :=
  match n_pitch note with
  | Some pitch =>
      let midiNote := pitchMidi pitch in
      [JS.Num 0x00; JS.Num 0x90; midiNote; JS.Num 0x64]
      ++ [JS.Num 0x83; JS.Num 0x60; JS.Num 0x80; midiNote; JS.Num 0x00]
  | None => []
  end.

Definition trackData (notes : list Note) : list JS.Value :=
  flat_map noteEvents notes ++ (JS.Num <$> [0x00; 0xFF; 0x2F; 0x00]).

Definition trackLengthBytes (trackLength : Z) : list Z :=
  [ JS.band (JS.sar trackLength 24) 0xFF;
    JS.band (JS.sar trackLength 16) 0xFF;
    JS.band (JS.sar trackLength 8) 0xFF;
    JS.band trackLength 0xFF ].

(** The number array [midiData] at the end of [generateMIDI]. *)
Definition midiData (notes : list Note) : list JS.Value :=
  let track := trackData notes in
  (JS.Num <$> [0x4D; 0x54; 0x68; 0x64] ++ [0x00; 0x00; 0x00; 0x06]
     ++ [0x00; 0x00] ++ [0x00; 0x01] ++ [0x00; 0x60]
     ++ [0x4D; 0x54; 0x72; 0x6B]
     ++ trackLengthBytes (Z.of_nat (length track)))
  ++ track.

(** The bytes of the blob: [new Uint8Array(midiData)]. *)
Definition encode (notes : list Note) : list Z :=
  JS.toUint8 <$> midiData notes.

Definition generateMIDI (D : Document) : list Z := encode (allNotes D).

(** ** The recognised document (mocked in the source) *)

(** [NoteData] of [generateMockMusicXML]. *)
Record NoteData := mkNoteData {
  nd_step : string;
  nd_octave : Z;
  nd_alter : option Z;
  nd_duration : option Z
}.

Definition nd (step : string) (octave : Z) : NoteData :=
  mkNoteData step octave None None.
Definition ndAlter (step : string) (octave alter : Z) : NoteData :=
  mkNoteData step octave (Some alter) None.

Definition mockMeasures : list (list NoteData) :=
  [ [nd "F" 4; nd "F" 4; nd "F" 4; nd "G" 4];
    [nd "A" 4; ndAlter "B" 4 (-1); nd "A" 4; nd "G" 4];
    [nd "F" 4; nd "F" 4; nd "G" 4; nd "A" 4];
    [ndAlter "B" 4 (-1); nd "A" 4; nd "G" 4; nd "F" 4];
    [nd "C" 5; nd "C" 5; nd "C" 5; nd "D" 5];
    [ndAlter "E" 5 (-1); nd "D" 5; nd "C" 5; ndAlter "B" 4 (-1)];
    [nd "A" 4; ndAlter "B" 4 (-1); nd "C" 5; nd "D" 5];
    [ mkNoteData "C" 5 None (Some 8); mkNoteData "B" 4 (Some (-1)) (Some 8) ] ].

(** The [<note>] the template emits for one [NoteData]. *)
Definition mockNote (note : NoteData) : Note :=
  let alter := if decide (JS.or0 (nd_alter note) = 0) then None
               else nd_alter note in
  let duration := if decide (JS.or0 (nd_duration note) = 0) then 4
                  else JS.or0 (nd_duration note) in
  let noteType := if decide (duration = 8) then "half" else "quarter" in
  mkNote (Some (mkPitch (Some (nd_step note)) alter (Some (nd_octave note))))
    duration noteType.

Definition mockAttributes : Attributes :=
  mkAttributes (Some 4) (Some (mkKey (Some (-1))))
    (Some (mkTime 4 4)) (Some (mkClef "G" 2)).

(** The [<measure>] at position [index] of the template. *)
Definition mockMeasure (index : nat) (notes : list NoteData) : Measure :=
  mkMeasure (Z.of_nat index + 1)
    (if decide (index = 0%nat) then Some mockAttributes else None)
    (mockNote <$> notes).

(** The document [generateMockMusicXML()] describes. *)
Definition generateMockMusicXML : Document :=
  mkDocument "Praise to the Lord" "W.S. Bennett 1816-1875" "Piano"
    (imap mockMeasure mockMeasures).

(** ** processFile *)

Definition INSTRUMENT_TRANSPOSITIONS : gmap string Z :=
  <["Bb Clarinet" := 2]> (<["Eb Alto Saxophone" := 9]>
  (<["Bb Tenor Saxophone" := 14]> (<["Eb Baritone Saxophone" := 21]>
  (<["Bb Soprano Saxophone" := 2]> (<["F French Horn" := 7]>
  (<["Bb Trumpet" := 2]> (<["Bb Flugelhorn" := 2]>
  (<["Bb Trombone" := 0]> (<["Eb Tuba" := 9]> (<["F Tuba" := 7]>
  (<["Bb Euphonium" := 2]>
  (<["Violin" := 0]> (<["Viola" := 0]> (<["Cello" := 0]>
  (<["Double Bass" := 0]> (<["Guitar" := 0]>
  (<["Bass Guitar" := 0]> ∅))))))))))))))))).

(** [INSTRUMENT_TRANSPOSITIONS[targetInstrument] || 0]. *)
Definition instrumentSemitones (targetInstrument : string) : JS.Value :=
  JS.or (JS.get INSTRUMENT_TRANSPOSITIONS targetInstrument) 0.

Record ProcessingResult (PdfBlob : Type) := mkResult {
  success : bool;
  musicXML : option Document;
  pdfBlob : option PdfBlob;
  midiBlob : option (list Z);
  error : option Exn
}.
Arguments mkResult {PdfBlob}.
Arguments success {PdfBlob}.
Arguments musicXML {PdfBlob}.
Arguments pdfBlob {PdfBlob}.
Arguments midiBlob {PdfBlob}.
Arguments error {PdfBlob}.

Section Pipeline.

(** The uploaded file and the rendering collaborator (OSMD and jsPDF) are
    external; [renderToPDF] catches its own errors and always answers.
    [readCompletes] tells whether the [FileReader] delivers its [load]
    event for a file. *)
Variable File : Type.
Variable PdfBlob : Type.
Variable renderToPDF : Document → PdfBlob.
Variable readCompletes : File → bool.

(** [processPDFToMusicXML(file)]: recognition is mocked.  The promise is
    resolved in [reader.onload] only and there is no [onerror]: when the
    read fails it never settles, which is the [None] here. *)
Definition processPDFToMusicXML (file : File) : option Document :=
  if readCompletes file then Some generateMockMusicXML else None.

(** Steps 2 to 4 of [processFile], for a recognised document. *)
Definition processDocument (doc : Document) (targetInstrument : string)
  : ProcessingResult PdfBlob :=
  let semitones := instrumentSemitones targetInstrument in
  match transposeMusicXML doc semitones with
  | Ok transposedXML =>
      mkResult true (Some transposedXML) (Some (renderToPDF transposedXML))
        (Some (generateMIDI transposedXML)) None
  | Throw e => mkResult false None None None (Some e)
  end.

(** [processFile(file, targetInstrument, sourceKey)]; the source never
    reads [sourceKey].  [None]: the promise never settles. *)
Definition processFile (file : File) (targetInstrument : string)
  : option (ProcessingResult PdfBlob) :=
  musicXML ← processPDFToMusicXML file;
  Some (processDocument musicXML targetInstrument).

End Pipeline.
Arguments processPDFToMusicXML {File} readCompletes file.
Arguments processDocument {PdfBlob} renderToPDF doc targetInstrument.
Arguments processFile {File PdfBlob} renderToPDF readCompletes file
  targetInstrument.

(** ** Reference definitions, in the words of the specification *)

Module Spec.

(** The seven letter names. *)
Definition steps : list string := ["A"; "B"; "C"; "D"; "E"; "F"; "G"].

(** The canonical sharp-preferring spelling of a pitch class. *)
Definition canonical (pitchClass : Z) : string * Z :=
  match pitchClass with
  | 0 => ("C", 0) | 1 => ("C", 1) | 2 => ("D", 0) | 3 => ("D", 1)
  | 4 => ("E", 0) | 5 => ("F", 0) | 6 => ("F", 1) | 7 => ("G", 0)
  | 8 => ("G", 1) | 9 => ("A", 0) | 10 => ("A", 1) | _ => ("B", 0)
  end.

(** The conventional fifths delta of a semitone offset in [0, 11]. *)
Definition fifthsDelta (offset : Z) : Z :=
  match offset with
  | 0 => 0 | 1 => 7 | 2 => 2 | 3 => -3 | 4 => 4 | 5 => -1
  | 6 => 6 | 7 => 1 | 8 => -4 | 9 => 3 | 10 => -2 | 11 => 5
  | _ => 0
  end.

Definition clamp (lo hi x : Z) : Z := Z.max lo (Z.min hi x).

(** A spelling as the triple (step, alter, octave). *)
Definition Spelling : Type := string * Z * Z.

(** The canonical spelling of an absolute pitch value. *)
Definition respell (midi : Z) : Spelling :=
  (fst (canonical (midi `mod` 12)), snd (canonical (midi `mod` 12)),
   midi `div` 12 - 1).

(** The continuation bytes of a variable-length quantity, most
    significant group first; [fuel] bounds the number of groups. *)
Fixpoint vlqHigh (fuel : nat) (n : Z) : list Z :=
  match fuel with
  | O => []
  | S fuel' =>
      if decide (n ≤ 0) then []
      else vlqHigh fuel' (n `div` 128) ++ [Z.lor (n `mod` 128) 0x80]
  end.

(** MIDI variable-length quantity: 7 data bits per byte, high bit set on
    all but the final byte. *)
Definition vlq (n : Z) : list Z :=
  vlqHigh (Z.to_nat n) (n `div` 128) ++ [n `mod` 128].


(** A big-endian unsigned integer. *)
Definition bigEndian (bytes : list Z) : Z :=
  foldl (λ acc b, acc * 256 + b) 0 bytes.

Definition MThd : list Z :=
  [0x4D; 0x54; 0x68; 0x64; 0x00; 0x00; 0x00; 0x06;
   0x00; 0x00; 0x00; 0x01; 0x00; 0x60].

Definition endOfTrack : list Z := [0x00; 0xFF; 0x2F; 0x00].

End Spec.

(** The spelling the code reads from a [<pitch>] (absent children read as
    their defaults, as in [generateMIDI]). *)
Definition spelling (pitch : Pitch) : Spec.Spelling :=
  (textOr (default "" (p_step pitch)) "C",
   default 0 (p_alter pitch),
   default 4 (p_octave pitch)).

(** Both [<step>] and [<octave>] are present: the pitches
    [transposeMusicXML] rewrites. *)
Definition complete (pitch : Pitch) : Prop :=
  is_Some (p_step pitch) ∧ is_Some (p_octave pitch).

(** [noteToMidi] called on the fields of the object [midiToNote] returned:
    an [undefined] step is the key ["undefined"], an [undefined] alter takes
    the parameter's default. *)
Definition noteToMidiRep (r : NoteRep) : JS.Value :=
  noteToMidi (default "undefined" (rep_step r)) (rep_octave r)
    (default 0 (rep_alter r)).

(** The [<pitch>] written for a transposed value whose table reads are
    defined: canonical step, an [<alter>] only when it is not 0. *)
Definition canonicalPitch (midi : Z) : Pitch :=
  let entry := Spec.canonical (midi `mod` 12) in
  mkPitch (Some (fst entry))
    (if decide (snd entry ≠ 0) then Some (snd entry) else None)
    (Some (midi `div` 12 - 1)).

(** ** What transposition must leave alone *)

(** A document with its pitch fields and its fifths blanked: two documents
    with the same frame differ at most in the step, alter and octave of
    their pitches and in the fifths of their keys. *)
Definition framePitch (p : Pitch) : Pitch := mkPitch None None None.

Definition frameNote (n : Note) : Note :=
  mkNote (framePitch <$> n_pitch n) (n_duration n) (n_type n).

Definition frameKey (k : Key) : Key := mkKey None.

Definition frameAttributes (a : Attributes) : Attributes :=
  mkAttributes (a_divisions a) (frameKey <$> a_key a) (a_time a) (a_clef a).

Definition frameMeasure (m : Measure) : Measure :=
  mkMeasure (m_number m) (frameAttributes <$> m_attributes m)
    (frameNote <$> m_notes m).

Definition frame (D : Document) : Document :=
  mkDocument (d_title D) (d_composer D) (d_part_name D)
    (frameMeasure <$> d_measures D).

(** The time signature, clef and divisions of every measure. *)
Definition measureLayout (m : Measure)
  : option (option Z * option Time * option Clef) :=
  (λ a, (a_divisions a, a_time a, a_clef a)) <$> m_attributes m.

(** A value is a number that is not negative. *)
Definition isNonnegative (v : JS.Value) : Prop :=
  match v with
  | JS.Num m => 0 ≤ m
  | JS.Obj | JS.Str => False
  end.

(** Every note of the document has an absolute MIDI value, a number, that
    is not negative. *)
Definition nonnegative (D : Document) : Prop :=
  Forall (λ n, from_option (λ p, isNonnegative (pitchMidi p)) True
                 (n_pitch n))
    (allNotes D).

(** What transposition by 0 keeps of a pitch: its value always; its
    spelling becomes the canonical one of that value when the pitch is
    complete, and is untouched otherwise. *)
Definition pitchKept (p p' : Pitch) : Prop :=
  pitchMidi p' = pitchMidi p
  ∧ (complete p →
     ∃ m, pitchMidi p = JS.Num m ∧ spelling p' = Spec.respell m)
  ∧ (∀ m, pitchMidi p = JS.Num m → spelling p = Spec.respell m →
       spelling p' = spelling p).

Definition noteKept (n n' : Note) : Prop :=
  n_duration n' = n_duration n ∧ n_type n' = n_type n
  ∧ option_Forall2 pitchKept (n_pitch n) (n_pitch n').

(** The identity as the specification words it: value and spelling of every
    note unchanged. *)
Definition noteIdentical (n n' : Note) : Prop :=
  option_Forall2
    (λ p p', pitchMidi p' = pitchMidi p ∧ spelling p' = spelling p)
    (n_pitch n) (n_pitch n').

#[global] Instance complete_dec (p : Pitch) : Decision (complete p).
Proof. unfold complete. apply _. Defined.


(** ** The transposition as a pure rewriting *)

#[global] Instance Res_fmap : FMap Res := λ A B f r,
  match r with
  | Ok a => Ok (f a)
  | Throw e => Throw e
  end.

(** A value to which adding [s] gives no number, or a number below zero
    that is not a multiple of 12. *)
Definition badValue (s : Z) (v : JS.Value) : Prop :=
  match v with
  | JS.Num m => m + s < 0 ∧ (m + s) `mod` 12 ≠ 0
  | JS.Obj | JS.Str => True
  end.

#[global] Instance badValue_dec (s : Z) (v : JS.Value) :
  Decision (badValue s v).
Proof. destruct v; apply _. Defined.

(** The pitches on which the loop body throws: complete, with such a
    value. *)
Definition throwsAt (s : Z) (p : Pitch) : Prop :=
  complete p ∧ badValue s (pitchMidi p).

#[global] Instance throwsAt_dec (s : Z) (p : Pitch) : Decision (throwsAt s p).
Proof. unfold throwsAt. apply _. Defined.

Definition noteThrows (s : Z) (n : Note) : Prop :=
  from_option (throwsAt s) False (n_pitch n).

#[global] Instance noteThrows_dec (s : Z) (n : Note) :
  Decision (noteThrows s n).
Proof. unfold noteThrows. destruct (n_pitch n); apply _. Defined.

(** What the loop body writes when it does not throw. *)
Definition shiftPitch (s : Z) (p : Pitch) : Pitch :=
  if decide (complete p) then
    match pitchMidi p with
    | JS.Num m => canonicalPitch (m + s)
    | JS.Obj | JS.Str => p
    end
  else p.

Definition shiftNote (s : Z) (n : Note) : Note :=
  mkNote (shiftPitch s <$> n_pitch n) (n_duration n) (n_type n).

Definition shiftMeasure (s : Z) (m : Measure) : Measure :=
  mkMeasure (m_number m) (transposeAttributes s <$> m_attributes m)
    (shiftNote s <$> m_notes m).

Definition shiftDocument (s : Z) (D : Document) : Document :=
  mkDocument (d_title D) (d_composer D) (d_part_name D)
    (shiftMeasure s <$> d_measures D).

(** The [<fifths>] of a measure, and all of them in document order. *)
Definition measureFifths (m : Measure) : option Z :=
  match m_attributes m with
  | Some a => match a_key a with Some k => k_fifths k | None => None end
  | None => None
  end.

Definition allFifths (D : Document) : list Z :=
  omap measureFifths (d_measures D).

(** What a successful transposition by [s] does to a pitch, in terms of
    what the code reads back from it. *)
Definition pitchShifted (s : Z) (p p' : Pitch) : Prop :=
  if decide (complete p)
  then ∃ m, pitchMidi p = JS.Num m
            ∧ pitchMidi p' = JS.Num (m + s)
            ∧ spelling p' = Spec.respell (m + s)
  else p' = p.

Definition noteShifted (s : Z) (n n' : Note) : Prop :=
  n_duration n' = n_duration n ∧ n_type n' = n_type n
  ∧ option_Forall2 (pitchShifted s) (n_pitch n) (n_pitch n').

(** ** What the encoder keeps of a note sequence *)

(** The note-number bytes of the blob, one for each note that has a
    [<pitch>], in order. *)
Definition noteNumbers (notes : list Note) : list Z :=
  (λ p, JS.toUint8 (pitchMidi p)) <$> omap n_pitch notes.

(** The nine bytes of the blob for one note number. *)
Definition noteBytes (b : Z) : list Z :=
  [0x00; 0x90; b; 0x64; 0x83; 0x60; 0x80; b; 0x00].

(** ** The instrument selector *)

(** An entry of [instrumentCategories] in [InstrumentSelector.tsx]. *)
Record Instrument := mkInstrument {
  i_name : string;
  i_key : string;
  i_transpose : string
}.

Record InstrumentCategory := mkCategory {
  cat_name : string;
  cat_instruments : list Instrument
}.

Definition instrumentCategories : list InstrumentCategory :=
  [ mkCategory "Woodwinds"
      [ mkInstrument "Bb Clarinet" "Bb" "+2";
        mkInstrument "Eb Alto Saxophone" "Eb" "+6";
        mkInstrument "Bb Tenor Saxophone" "Bb" "+2";
        mkInstrument "Eb Baritone Saxophone" "Eb" "+6";
        mkInstrument "Bb Soprano Saxophone" "Bb" "+2";
        mkInstrument "F French Horn" "F" "+7" ];
    mkCategory "Brass"
      [ mkInstrument "Bb Trumpet" "Bb" "+2";
        mkInstrument "Bb Flugelhorn" "Bb" "+2";
        mkInstrument "Bb Trombone" "Bb" "+2";
        mkInstrument "Eb Tuba" "Eb" "+6";
        mkInstrument "F Tuba" "F" "+7";
        mkInstrument "Bb Euphonium" "Bb" "+2" ];
    mkCategory "Strings"
      [ mkInstrument "Violin" "C" "0";
        mkInstrument "Viola" "C" "0";
        mkInstrument "Cello" "C" "0";
        mkInstrument "Double Bass" "C" "-12";
        mkInstrument "Guitar" "C" "-12";
        mkInstrument "Bass Guitar" "C" "-12" ] ].

(** The names the selector can hand to [onInstrumentSelect]. *)
Definition selectableInstruments : list string :=
  i_name <$> flat_map cat_instruments instrumentCategories.

(** Every pitch of the document has both a step and an octave. *)
Definition allComplete (D : Document) : Prop :=
  Forall (λ n, from_option complete True (n_pitch n)) (allNotes D).

(** ** musicXMLGenerator.ts *)

Module Generator.

(** [keyMap] of [keyToFifths]. *)
Definition keyMap : gmap string Z :=
  <["C" := 0]> (<["G" := 1]> (<["D" := 2]> (<["A" := 3]> (<["E" := 4]>
  (<["B" := 5]> (<["F#" := 6]> (<["C#" := 7]>
  (<["F" := -1]> (<["Bb" := -2]> (<["Eb" := -3]> (<["Ab" := -4]>
  (<["Db" := -5]> (<["Gb" := -6]> (<["Cb" := -7]> ∅)))))))))))))).

(** [keyToFifths(key)]. *)
Definition keyToFifths (key : string) : JS.Value :=
  JS.or (JS.get keyMap key) 0.

(** [durationMap] of [durationToTicks]. *)
Definition durationMap : gmap string Z :=
  <["whole" := 16]> (<["half" := 8]> (<["quarter" := 4]>
  (<["eighth" := 2]> (<["sixteenth" := 1]> ∅)))).

(** [durationToTicks(duration)]. *)
Definition durationToTicks (duration : string) : JS.Value :=
  JS.or (JS.get durationMap duration) 4.

(** The character classes of the pattern [/([A-G])([#b]?)(\d+)/]. *)
Definition isStep (c : ascii) : bool :=
  match c with
  | "A" | "B" | "C" | "D" | "E" | "F" | "G" => true
  | _ => false
  end%char.

Definition isAccidental (c : ascii) : bool :=
  match c with
  | "#" | "b" => true
  | _ => false
  end%char.

(** [\d]: the characters from ["0"] (code 48) to ["9"] (code 57), with the
    value [parseInt] gives each. *)
Definition digitValue (c : ascii) : option Z :=
  let code := Z.of_N (N_of_ascii c) in
  if decide (48 ≤ code ≤ 57) then Some (code - 48) else None.

(** The longest run of digits at the start of a string: what the greedy
    [\d+] takes. *)
Fixpoint digitPrefix (s : string) : string :=
  match s with
  | String c rest =>
      match digitValue c with
      | Some _ => String c (digitPrefix rest)
      | None => EmptyString
      end
  | EmptyString => EmptyString
  end.

(** [parseInt] on a string of digits. *)
Fixpoint digitsValue (acc : Z) (s : string) : Z :=
  match s with
  | String c rest => digitsValue (acc * 10 + default 0 (digitValue c)) rest
  | EmptyString => acc
  end.

(** A match of the pattern starting at the first character: the groups
    (step, accidental, digits).  The optional accidental is taken when it is
    there; if no digit follows it, giving it back does not help, since the
    digits would then have to start at the accidental. *)
Definition matchHere (s : string) : option (ascii * string * string) :=
  match s with
  | String c rest =>
      if isStep c then
        match rest with
        | String a rest' =>
            if isAccidental a then
              match digitPrefix rest' with
              | EmptyString => None
              | ds => Some (c, String a EmptyString, ds)
              end
            else
              match digitPrefix rest with
              | EmptyString => None
              | ds => Some (c, EmptyString, ds)
              end
        | EmptyString => None
        end
      else None
  | EmptyString => None
  end.

(** [pitch.match(...)]: the leftmost match. *)
Fixpoint search (s : string) : option (ascii * string * string) :=
  match matchHere s with
  | Some m => Some m
  | None =>
      match s with
      | String _ rest => search rest
      | EmptyString => None
      end
  end.

(** The object [parsePitch] returns. *)
Record Parsed := mkParsed {
  step : string;
  octave : Z;
  alter : Z
}.

(** [parsePitch(pitch)]. *)
Definition parsePitch (pitch : string) : Parsed :=
  match search pitch with
  | None => mkParsed "C" 4 0
  | Some (stepChar, accidental, octaveStr) =>
      let octave := digitsValue 0 octaveStr in
      let alter := if decide (accidental = "#") then 1
                   else if decide (accidental = "b") then -1
                   else 0 in
      mkParsed (String stepChar EmptyString) octave alter
  end.

(** The [<pitch>] that [generateMusicXML] writes for a note. *)
Definition notePitch (pitch : string) : Pitch :=
  let r := parsePitch pitch in
  mkPitch (Some (step r))
    (if decide (alter r ≠ 0) then Some (alter r) else None)
    (Some (octave r)).

End Generator.

(** Two pitches with the same step and alter, [k] octaves apart. *)
Definition octavesApart (k : Z) (p p' : Pitch) : Prop :=
  p_step p' = p_step p ∧ p_alter p' = p_alter p
  ∧ p_octave p' = (λ o, o + k) <$> p_octave p.

(** * Properties *)

(** ** Arithmetic of the JavaScript primitives *)

Lemma rem_nonneg (m : Z) : 0 ≤ m → m `rem` 12 = m `mod` 12.
Proof. intros Hm. apply Z.rem_mod_nonneg; lia. Qed.

(** Case analysis on a pitch class or a normalised offset. *)
Ltac cases12 i :=
  let H := fresh "H" in
  assert (i = 0 ∨ i = 1 ∨ i = 2 ∨ i = 3 ∨ i = 4 ∨ i = 5 ∨
          i = 6 ∨ i = 7 ∨ i = 8 ∨ i = 9 ∨ i = 10 ∨ i = 11)
    as [H|[H|[H|[H|[H|[H|[H|[H|[H|[H|[H|H]]]]]]]]]]] by lia;
  subst i.

Lemma index_nonneg {A} (a : list A) (i : Z) :
  0 ≤ i → JS.index a i = a !! Z.to_nat i.
Proof. intros Hi. unfold JS.index. by rewrite decide_True. Qed.

Lemma index_negative {A} (a : list A) (i : Z) :
  i < 0 → JS.index a i = None.
Proof. intros Hi. unfold JS.index. rewrite decide_False; [done | lia]. Qed.

Lemma normalize_mod (s : Z) : ((s `rem` 12) + 12) `rem` 12 = s `mod` 12.
Proof. Z.to_euclidean_division_equations. lia. Qed.

Lemma max_min_clamp (x : Z) : JS.max (-7) (JS.min 7 x) = Spec.clamp (-7) 7 x.
Proof. unfold JS.max, JS.min, Spec.clamp. repeat case_decide; lia. Qed.

(** ** midiToNote *)

(** The two arrays of [midiToNote] are the two columns of the table. *)
Lemma tables_canonical (i : Z) :
  0 ≤ i < 12 →
  JS.index noteNames i = Some (fst (Spec.canonical i))
  ∧ JS.index alterations i = Some (snd (Spec.canonical i)).
Proof. intros Hi. cases12 i; by split. Qed.

Lemma midiToNote_negative (m : Z) :
  m < 0 → m `mod` 12 ≠ 0 →
  midiToNote m = mkNoteRep None (m `div` 12 - 1) None.
Proof.
  intros Hm Hr. unfold midiToNote.
  rewrite !index_negative; [done|..];
    revert Hr; Z.to_euclidean_division_equations; lia.
Qed.

(** C5. For every non-negative MIDI value, [midiToNote] answers the step and
    alter of the canonical sharp-preferring table at index [m mod 12], and
    the octave [floor (m / 12) - 1]. *)
Theorem midiToNote_canonical (m : Z) :
  0 ≤ m →
  midiToNote m =
    mkNoteRep (Some (fst (Spec.canonical (m `mod` 12)))) (m `div` 12 - 1)
      (Some (snd (Spec.canonical (m `mod` 12)))).
Proof.
  intros Hm. unfold midiToNote. rewrite rem_nonneg by done.
  destruct (tables_canonical (m `mod` 12)) as [-> ->]; [|done].
  apply Z.mod_pos_bound. lia.
Qed.

Lemma midiToNote_canonical_witness :
  0 ≤ 70 ∧ midiToNote 70 = mkNoteRep (Some "A") 4 (Some 1).
Proof. split; [lia | apply (midiToNote_canonical 70); lia]. Defined.

(** ** transposeKeySignature *)

Lemma fifthsChange_table (i : Z) :
  0 ≤ i < 12 →
  JS.or0 (semitoneToFifthsMap !! i) = Spec.fifthsDelta i.
Proof.
  intros Hi. cases12 i; reflexivity.
Qed.

Lemma transposeKeySignature_delta (f s : Z) :
  transposeKeySignature f s =
    Spec.clamp (-7) 7 (f + Spec.fifthsDelta (s `mod` 12)).
Proof.
  unfold transposeKeySignature. rewrite normalize_mod.
  rewrite fifthsChange_table by (apply Z.mod_pos_bound; lia).
  apply max_min_clamp.
Qed.

(** C3. For all integers [f] and [s], the transposed key signature is
    [clamp (f + delta) (-7) 7] with [delta] the conventional table value at
    index [((s mod 12) + 12) mod 12]; the result always lies in [-7, 7], in
    particular for every starting [f] in [-7, 7]. *)
Theorem transposeKeySignature_clamp (f s : Z) :
  transposeKeySignature f s =
    Spec.clamp (-7) 7 (f + Spec.fifthsDelta (((s `mod` 12) + 12) `mod` 12))
  ∧ -7 ≤ transposeKeySignature f s ≤ 7.
Proof.
  replace (((s `mod` 12) + 12) `mod` 12) with (s `mod` 12)
    by (Z.to_euclidean_division_equations; lia).
  rewrite transposeKeySignature_delta. split; [done|].
  unfold Spec.clamp. lia.
Qed.

(** The same table when the index is computed with JavaScript's [%], as the
    source writes it. *)
Lemma transposeKeySignature_rem (f s : Z) :
  transposeKeySignature f s =
    Spec.clamp (-7) 7 (f + Spec.fifthsDelta (((s `rem` 12) + 12) `rem` 12)).
Proof. rewrite normalize_mod. apply transposeKeySignature_delta. Qed.

(** ** Transposing one pitch *)

Lemma canonical_entry_value (i : Z) :
  0 ≤ i < 12 →
  ∃ base alter,
    JS.or (JS.get noteMap (textOr (fst (Spec.canonical i)) "C")) 0
      = JS.Num base
    ∧ default 0 (if decide (snd (Spec.canonical i) ≠ 0)
                 then Some (snd (Spec.canonical i)) else None) = alter
    ∧ base + alter = i.
Proof.
  intros Hi. cases12 i; do 2 eexists;
    (split; [vm_compute; reflexivity|]); split; reflexivity.
Qed.

Lemma pitchMidi_canonicalPitch (m : Z) : pitchMidi (canonicalPitch m) = m.
Proof.
  unfold canonicalPitch, pitchMidi, noteToMidi.
  cbn [p_step p_alter p_octave default from_option id].
  pose proof (Z.mod_pos_bound m 12 ltac:(lia)) as Hi.
  destruct (canonical_entry_value (m `mod` 12) Hi)
    as (base & alter & -> & -> & He).
  cbn [JS.add]. f_equal.
  pose proof (Z.div_mod m 12 ltac:(lia)). lia.
Qed.

Lemma spelling_canonicalPitch (m : Z) :
  spelling (canonicalPitch m) = Spec.respell m.
Proof.
  unfold canonicalPitch, spelling, Spec.respell.
  cbn [p_step p_alter p_octave].
  pose proof (Z.mod_pos_bound m 12 ltac:(lia)) as Hi.
  generalize dependent (m `mod` 12). intros i Hi.
  cases12 i; reflexivity.
Qed.

Lemma pitchMidi_complete (p : Pitch) (st : string) (oc : Z) :
  p_step p = Some st → p_octave p = Some oc →
  pitchMidi p = noteToMidi (textOr st "C") oc (default 0 (p_alter p)).
Proof. intros Hs Ho. unfold pitchMidi. by rewrite Hs, Ho. Qed.

(** What the loop body does with a complete pitch, by the value it reads. *)
Lemma transposePitch_complete (v : JS.Value) (p : Pitch) :
  complete p →
  transposePitch v p =
    match JS.add (pitchMidi p) v with
    | JS.Num t =>
        let r := midiToNote t in
        match rep_alter r with
        | None => Throw TypeError
        | Some alter =>
            Ok (mkPitch (Some (default "" (rep_step r)))
                  (if decide (alter ≠ 0) then Some alter else None)
                  (Some (rep_octave r)))
        end
    | JS.Obj | JS.Str => Throw TypeError
    end.
Proof.
  intros [[st Hs] [oc Ho]].
  rewrite (pitchMidi_complete p st oc) by done.
  unfold transposePitch. rewrite Hs, Ho.
  destruct (JS.add _ v) as [t| |]; [|done..]. cbv zeta.
  destruct (rep_alter (midiToNote t)); [|done]. by case_decide.
Qed.

(** A complete pitch whose transposed value is not negative is rewritten to
    the canonical spelling of that value. *)
Lemma transposePitch_nonneg (s m : Z) (p : Pitch) :
  complete p → pitchMidi p = JS.Num m → 0 ≤ m + s →
  transposePitch s p = Ok (canonicalPitch (m + s)).
Proof.
  intros Hc Hv Hm. rewrite transposePitch_complete by done.
  rewrite Hv. cbn [JS.add]. cbv zeta.
  unfold midiToNote. rewrite rem_nonneg by done.
  destruct (tables_canonical ((m + s) `mod` 12)) as [-> ->];
    [apply Z.mod_pos_bound; lia|].
  by cbn [rep_step rep_octave rep_alter].
Qed.

(** A pitch without [<step>] or without [<octave>] is left as it is. *)
Lemma transposePitch_incomplete (v : JS.Value) (p : Pitch) :
  ¬ complete p → transposePitch v p = Ok p.
Proof.
  unfold complete, transposePitch. intros Hc.
  destruct (p_step p), (p_octave p); try done.
  exfalso. apply Hc. split; eauto.
Qed.

(** A complete pitch whose transposed value is negative and not a multiple
    of 12 makes the loop body throw. *)
Lemma transposePitch_negative (s m : Z) (p : Pitch) :
  complete p → pitchMidi p = JS.Num m →
  m + s < 0 → (m + s) `mod` 12 ≠ 0 →
  transposePitch s p = Throw TypeError.
Proof.
  intros Hc Hv Hm Hr. rewrite transposePitch_complete by done.
  rewrite Hv. cbn [JS.add]. cbv zeta.
  by rewrite midiToNote_negative.
Qed.

(** A complete pitch whose value is no number makes the loop body throw,
    and so does every complete pitch when the offset is no number. *)
Lemma transposePitch_not_a_number (v : JS.Value) (p : Pitch) :
  complete p → JS.add (pitchMidi p) v = JS.Str →
  transposePitch v p = Throw TypeError.
Proof.
  intros Hc Hv. rewrite transposePitch_complete by done. by rewrite Hv.
Qed.

(** The value law on the range where the table reads are defined: the
    rewritten pitch has the original value plus [s]. *)
Lemma transposePitch_value (s m : Z) (p : Pitch) :
  complete p → pitchMidi p = JS.Num m → 0 ≤ m + s →
  ∃ p', transposePitch s p = Ok p' ∧ pitchMidi p' = JS.Num (m + s).
Proof.
  intros Hc Hv Hm. eexists. split; [by apply transposePitch_nonneg|].
  apply pitchMidi_canonicalPitch.
Qed.

(** C1. The value law fails below zero.  C-1 is MIDI 0; one semitone down is
    -1, where [-1 % 12] is -1, both table reads are [undefined], the pitch
    read back is -12 instead of -1, and the loop body of [transposeMusicXML]
    throws at [alter.toString()]. *)
Theorem transpose_below_zero_throws :
  let p := mkPitch (Some "C") (Some 0) (Some (-1)) in
  "C" ∈ Spec.steps
  ∧ pitchMidi p = noteToMidi "C" (-1) 0
  ∧ noteToMidi "C" (-1) 0 = 0
  ∧ JS.add (noteToMidi "C" (-1) 0) (-1) = -1
  ∧ midiToNote (0 + -1) = mkNoteRep None (-2) None
  ∧ noteToMidiRep (midiToNote (0 + -1)) = -12
  ∧ transposePitch (-1) p = Throw TypeError.
Proof.
  cbv zeta. split; [unfold Spec.steps; set_solver|].
  repeat split; vm_compute; reflexivity.
Qed.

(** ** The concrete scenario *)

(** C4 as stated fails: B♭4 is MIDI 70, nine semitones up is 79, and 79 is
    G natural in octave 5, not G sharp. *)
Lemma scenario_Bb4_plus9_not_G_sharp :
  ¬ (transposePitch 2 (mkPitch (Some "C") (Some 0) (Some 4))
       = Ok (mkPitch (Some "D") None (Some 4))
     ∧ pitchMidi (mkPitch (Some "B") (Some (-1)) (Some 4)) = 70
     ∧ ∃ p', transposePitch 9 (mkPitch (Some "B") (Some (-1)) (Some 4)) = Ok p'
             ∧ pitchMidi p' = 79
             ∧ spelling p' = ("G", 1, 5)).
Proof.
  intros (_ & _ & p' & Hp & _ & Hs).
  vm_compute in Hp. injection Hp as <-. vm_compute in Hs. congruence.
Qed.

(** C4, amended.  C4 up two semitones is D4 (no [<alter>] is written for
    alter 0); B♭4 is MIDI 70, and up nine semitones it is MIDI 79, which
    decomposes to G natural in octave 5. *)
Theorem scenario_C4_plus2_Bb4_plus9 :
  transposePitch 2 (mkPitch (Some "C") (Some 0) (Some 4))
    = Ok (mkPitch (Some "D") None (Some 4))
  ∧ spelling (mkPitch (Some "D") None (Some 4)) = ("D", 0, 4)
  ∧ pitchMidi (mkPitch (Some "B") (Some (-1)) (Some 4)) = 70
  ∧ transposePitch 9 (mkPitch (Some "B") (Some (-1)) (Some 4))
    = Ok (mkPitch (Some "G") None (Some 5))
  ∧ pitchMidi (mkPitch (Some "G") None (Some 5)) = 79
  ∧ midiToNote 79 = mkNoteRep (Some "G") 5 (Some 0)
  ∧ spelling (mkPitch (Some "G") None (Some 5)) = ("G", 0, 5).
Proof. repeat split; vm_compute; reflexivity. Qed.

(** ** The loop over nodes *)

Lemma forEach_Ok {A} (f : A → Res A) (xs ys : list A) :
  forEach f xs = Ok ys ↔ Forall2 (λ x y, f x = Ok y) xs ys.
Proof.
  revert ys. induction xs as [|x xs IH]; intros ys; cbn.
  - split; [intros [= <-]; constructor | by inversion 1].
  - unfold mbind, Res_bind. destruct (f x) as [y|e] eqn:Hx.
    + destruct (forEach f xs) as [zs|e] eqn:Hxs.
      * split.
        -- intros [= <-]. constructor; [done|]. by apply IH.
        -- inversion 1 as [|? y' ? zs' Hy Hzs]; subst.
           apply IH in Hzs. congruence.
      * split; [done|].
        inversion 1 as [|? y' ? zs' Hy Hzs]; subst.
        apply IH in Hzs. congruence.
    + split; [done|]. inversion 1; congruence.
Qed.

Lemma forEach_total {A} (f : A → Res A) (xs : list A) :
  Forall (λ x, ∃ y, f x = Ok y) xs → ∃ ys, forEach f xs = Ok ys.
Proof.
  induction 1 as [|x xs [y Hy] _ [ys Hys]]; cbn.
  - by eexists.
  - unfold mbind, Res_bind. rewrite Hy, Hys. by eexists.
Qed.

Lemma forEach_ext_in {A} (f g : A → Res A) (xs : list A) :
  Forall (λ x, f x = g x) xs → forEach f xs = forEach g xs.
Proof.
  induction 1 as [|x xs Hx _ IH]; cbn; [done|]. by rewrite Hx, IH.
Qed.

(** ** transposeMusicXML on the tree *)

Lemma bind_Ok {A B} (r : Res A) (k : A → Res B) (b : B) :
  r ≫= k = Ok b ↔ ∃ a, r = Ok a ∧ k a = Ok b.
Proof.
  unfold mbind, Res_bind. destruct r as [a|e].
  - split; [by exists a | by intros (? & [= <-] & ?)].
  - split; [done | by intros (? & ? & ?)].
Qed.

Lemma transposeMeasure_Ok (s : Z) (m m' : Measure) :
  transposeMeasure s m = Ok m' ↔
  ∃ notes', Forall2 (λ n n', transposeNote s n = Ok n') (m_notes m) notes'
            ∧ m' = mkMeasure (m_number m) (m_attributes m) notes'.
Proof.
  unfold transposeMeasure. rewrite bind_Ok. split.
  - intros (notes' & Hn & [= <-]). exists notes'. by rewrite <- forEach_Ok.
  - intros (notes' & Hn & ->). exists notes'. by rewrite forEach_Ok.
Qed.

Lemma transposeMusicXML_Ok (D D' : Document) (s : Z) :
  transposeMusicXML D s = Ok D' ↔
  ∃ ms, Forall2 (λ m m', transposeMeasure s m = Ok m') (d_measures D) ms
        ∧ D' = mkDocument (d_title D) (d_composer D) (d_part_name D)
                 (transposeMeasureKey s <$> ms).
Proof.
  unfold transposeMusicXML. rewrite bind_Ok. split.
  - intros (ms & Hm & [= <-]). exists ms. by rewrite <- forEach_Ok.
  - intros (ms & Hm & ->). exists ms. by rewrite forEach_Ok.
Qed.

Lemma flat_map_notes_key (s : Z) (ms : list Measure) :
  flat_map m_notes (transposeMeasureKey s <$> ms) = flat_map m_notes ms.
Proof. induction ms as [|m ms IH]; cbn; [done|]. by rewrite IH. Qed.

(** The notes of the output are the notes of the input, each rewritten by
    the loop body, in the same order. *)
Lemma transposeMusicXML_notes (D D' : Document) (s : Z) :
  transposeMusicXML D s = Ok D' →
  Forall2 (λ n n', transposeNote s n = Ok n') (allNotes D) (allNotes D').
Proof.
  rewrite transposeMusicXML_Ok. intros (ms & Hms & ->).
  unfold allNotes. cbn [d_measures]. rewrite flat_map_notes_key.
  induction Hms as [|m m' l l' Hm _ IH]; cbn; [constructor|].
  apply transposeMeasure_Ok in Hm as (notes' & Hn & ->).
  by apply Forall2_app.
Qed.

(** The transposition returns as soon as the loop body returns on every
    note. *)
Lemma transposeMusicXML_total (D : Document) (s : Z) :
  Forall (λ n, ∃ n', transposeNote s n = Ok n') (allNotes D) →
  ∃ D', transposeMusicXML D s = Ok D'.
Proof.
  intros Hall.
  assert (∃ ms, forEach (transposeMeasure s) (d_measures D) = Ok ms)
    as [ms Hms].
  { apply forEach_total. unfold allNotes in Hall.
    induction (d_measures D) as [|m l IH]; [constructor|].
    cbn in Hall. apply Forall_app in Hall as [Hm Hl].
    constructor; [|by apply IH].
    destruct (forEach_total _ _ Hm) as [ns Hns].
    unfold transposeMeasure. rewrite Hns. by eexists. }
  unfold transposeMusicXML. rewrite Hms. by eexists.
Qed.

Lemma transposeNote_Ok (s : Z) (n n' : Note) :
  transposeNote s n = Ok n' →
  n_duration n' = n_duration n ∧ n_type n' = n_type n
  ∧ option_Forall2 (λ p p', transposePitch s p = Ok p')
      (n_pitch n) (n_pitch n').
Proof.
  unfold transposeNote. destruct (n_pitch n) as [p|] eqn:Hp.
  - rewrite bind_Ok. intros (p' & Hp' & [= <-]). cbn.
    repeat split. by constructor.
  - intros [= <-]. rewrite Hp. repeat split. constructor.
Qed.

(** ** The frame of a transposition *)

Lemma frameNote_transposeNote (s : Z) (n n' : Note) :
  transposeNote s n = Ok n' → frameNote n' = frameNote n.
Proof.
  intros (Hd & Ht & Hp)%transposeNote_Ok. unfold frameNote.
  rewrite Hd, Ht. by destruct Hp.
Qed.

Lemma frameAttributes_transposeAttributes (s : Z) (a : Attributes) :
  frameAttributes (transposeAttributes s a) = frameAttributes a.
Proof.
  unfold frameAttributes, transposeAttributes. cbn. by destruct (a_key a).
Qed.

Lemma frameMeasure_transposeMeasureKey (s : Z) (m : Measure) :
  frameMeasure (transposeMeasureKey s m) = frameMeasure m.
Proof.
  unfold frameMeasure, transposeMeasureKey. cbn.
  destruct (m_attributes m) as [a|]; cbn; [|done].
  by rewrite frameAttributes_transposeAttributes.
Qed.

Lemma frameMeasure_transposeMeasure (s : Z) (m m' : Measure) :
  transposeMeasure s m = Ok m' → frameMeasure m' = frameMeasure m.
Proof.
  intros (notes' & Hn & ->)%transposeMeasure_Ok. unfold frameMeasure. cbn.
  f_equal. induction Hn as [|n n' l l' Hn _ IH]; cbn; [done|].
  by rewrite IH, (frameNote_transposeNote s n n').
Qed.

Lemma transposeMusicXML_same_frame (D D' : Document) (s : Z) :
  transposeMusicXML D s = Ok D' → frame D' = frame D.
Proof.
  intros (ms & Hms & ->)%transposeMusicXML_Ok. unfold frame. cbn. f_equal.
  induction Hms as [|m m' l l' Hm _ IH]; cbn; [done|].
  rewrite IH, frameMeasure_transposeMeasureKey.
  by rewrite (frameMeasure_transposeMeasure s m m').
Qed.

Lemma frame_layout (D : Document) :
  measureLayout <$> d_measures (frame D) = measureLayout <$> d_measures D.
Proof.
  unfold frame. cbn. rewrite <- list_fmap_compose.
  apply list_fmap_ext. intros _ m _. unfold measureLayout. cbn.
  by destruct (m_attributes m).
Qed.

Lemma frame_durations (D : Document) :
  (λ n, (n_duration n, n_type n)) <$> allNotes (frame D)
  = (λ n, (n_duration n, n_type n)) <$> allNotes D.
Proof.
  unfold allNotes, frame. cbn.
  induction (d_measures D) as [|m l IH]; cbn; [done|].
  rewrite !fmap_app, IH. f_equal.
  rewrite <- list_fmap_compose. by apply list_fmap_ext.
Qed.

(** C9. Whatever the document and the semitone count, the output of the
    transposition differs from the input at most in the step, alter and
    octave of its pitches and in the fifths of its keys: title, composer,
    the divisions, time signature and clef of every measure, and the
    duration and type of every note are those of the input. *)
Theorem transposeMusicXML_frame (D D' : Document) (s : Z) :
  transposeMusicXML D s = Ok D' →
  frame D' = frame D
  ∧ d_title D' = d_title D
  ∧ d_composer D' = d_composer D
  ∧ measureLayout <$> d_measures D' = measureLayout <$> d_measures D
  ∧ (λ n, (n_duration n, n_type n)) <$> allNotes D'
    = (λ n, (n_duration n, n_type n)) <$> allNotes D.
Proof.
  intros Hf%transposeMusicXML_same_frame. split; [done|].
  rewrite <- (frame_layout D), <- (frame_layout D').
  rewrite <- (frame_durations D), <- (frame_durations D'). rewrite Hf.
  repeat split.
  - by apply (f_equal d_title) in Hf.
  - by apply (f_equal d_composer) in Hf.
Qed.

Lemma transposeMusicXML_frame_witness :
  ∃ D', transposeMusicXML generateMockMusicXML 2 = Ok D'
        ∧ frame D' = frame generateMockMusicXML
        ∧ d_title D' = "Praise to the Lord".
Proof.
  eexists. split; [vm_compute; reflexivity|].
  split; eapply (transposeMusicXML_frame generateMockMusicXML _ 2);
    vm_compute; reflexivity.
Defined.

(** ** Transposition by zero *)

Lemma transposePitch_zero_kept (p p' : Pitch) :
  isNonnegative (pitchMidi p) → transposePitch 0 p = Ok p' → pitchKept p p'.
Proof.
  intros Hm Hp. destruct (decide (complete p)) as [Hc|Hc].
  - destruct (pitchMidi p) as [m| |] eqn:Hv; try done. cbn in Hm.
    rewrite (transposePitch_nonneg 0 m) in Hp by (done || lia).
    injection Hp as <-. rewrite Z.add_0_r. unfold pitchKept.
    rewrite pitchMidi_canonicalPitch, spelling_canonicalPitch, Hv.
    split; [done|]. split; [intros _; by exists m|].
    by intros m' [= <-] ->.
  - rewrite transposePitch_incomplete in Hp by done.
    injection Hp as <-. by repeat split.
Qed.

Lemma transposeNote_zero_total (n : Note) :
  from_option (λ p, isNonnegative (pitchMidi p)) True (n_pitch n) →
  ∃ n', transposeNote 0 n = Ok n'.
Proof.
  unfold transposeNote. destruct (n_pitch n) as [p|]; cbn; [|by eexists].
  intros Hm. destruct (decide (complete p)) as [Hc|Hc].
  - destruct (pitchMidi p) as [m| |] eqn:Hv; try done. cbn in Hm.
    rewrite (transposePitch_nonneg 0 m) by (done || lia). by eexists.
  - rewrite transposePitch_incomplete by done. by eexists.
Qed.

Lemma transposeNote_zero_kept (n n' : Note) :
  from_option (λ p, isNonnegative (pitchMidi p)) True (n_pitch n) →
  transposeNote 0 n = Ok n' → noteKept n n'.
Proof.
  intros Hm (Hd & Ht & Hp)%transposeNote_Ok. unfold noteKept.
  split; [done|]. split; [done|].
  destruct Hp as [p p' Hp|]; constructor.
  by apply transposePitch_zero_kept.
Qed.

(** On a document without negative pitch values the transposition by 0
    returns, and keeps every note. *)
Lemma transposeMusicXML_zero_kept (D : Document) :
  nonnegative D →
  ∃ D', transposeMusicXML D 0 = Ok D'
        ∧ Forall2 noteKept (allNotes D) (allNotes D').
Proof.
  intros Hnn.
  destruct (transposeMusicXML_total D 0) as [D' HD'].
  { eapply Forall_impl; [exact Hnn|]. apply transposeNote_zero_total. }
  exists D'. split; [done|].
  apply transposeMusicXML_notes in HD'. unfold nonnegative in Hnn.
  induction HD' as [|n n' l l' Hn _ IH]; [constructor|].
  apply Forall_cons in Hnn as [Hn0 Hl].
  constructor; [by apply transposeNote_zero_kept | by apply IH].
Qed.

(** Decides [nonnegative] on a closed document by evaluating every note. *)
Ltac solve_nonnegative :=
  unfold nonnegative; apply Forall_forall;
  let n := fresh "n" in let Hn := fresh "Hn" in
  intros n Hn; vm_compute allNotes in Hn;
  repeat (apply elem_of_cons in Hn as [->|Hn]; [by vm_compute|]);
  by apply elem_of_nil in Hn.

Lemma mock_nonnegative : nonnegative generateMockMusicXML.
Proof. solve_nonnegative. Qed.

(** C6 as stated fails on the very document the pipeline works on: its
    sixth note is B flat 4, and the transposition by 0 writes it back as
    A sharp 4. *)
Lemma identity_respells_mock :
  ¬ ∃ D', transposeMusicXML generateMockMusicXML 0 = Ok D'
          ∧ Forall2 noteIdentical (allNotes generateMockMusicXML)
              (allNotes D').
Proof.
  intros (D' & HD' & Hall).
  assert (allNotes generateMockMusicXML !! 5%nat
          = Some (mkNote (Some (mkPitch (Some "B") (Some (-1)) (Some 4)))
                    4 "quarter")) as Hx by reflexivity.
  vm_compute in HD'. injection HD' as <-.
  eapply Forall2_lookup_l in Hall as (n' & Hn' & Hid); [|exact Hx].
  vm_compute in Hn'. injection Hn' as <-.
  unfold noteIdentical in Hid. cbn in Hid.
  inversion Hid as [? ? [_ Hs]|]. vm_compute in Hs. congruence.
Qed.

(** C6, amended.  On every document whose notes all have an absolute MIDI
    value that is a number and not negative (so no step is the name of a
    member every object inherits), the transposition by 0 returns a
    document in which
    every note keeps its absolute pitch value, its duration and its type; a
    complete pitch comes back in the canonical sharp-preferring spelling of
    its value, so its spelling is unchanged when it was canonical already;
    everything outside pitches and fifths is unchanged. *)
Theorem transpose_zero_keeps_values (D : Document) :
  nonnegative D →
  ∃ D', transposeMusicXML D 0 = Ok D'
        ∧ Forall2 noteKept (allNotes D) (allNotes D')
        ∧ frame D' = frame D.
Proof.
  intros (D' & HD' & Hkept)%transposeMusicXML_zero_kept.
  exists D'. repeat split; [done..|].
  by apply (transposeMusicXML_same_frame D D' 0).
Qed.

Lemma transpose_zero_keeps_values_witness :
  nonnegative generateMockMusicXML
  ∧ ∃ D', transposeMusicXML generateMockMusicXML 0 = Ok D'
          ∧ Forall2 noteKept (allNotes generateMockMusicXML) (allNotes D')
          ∧ frame D' = frame generateMockMusicXML.
Proof.
  split; [solve_nonnegative|].
  apply (transpose_zero_keeps_values generateMockMusicXML).
  solve_nonnegative.
Defined.

(** The spellings of the table are fixed points of the respelling, in every
    octave: naturals and the sharps C#, D#, F#, G#, A# stay as written. *)
Lemma canonical_spelling_fixed (i octave : Z) :
  0 ≤ i < 12 →
  ∃ v, noteToMidi (fst (Spec.canonical i)) octave (snd (Spec.canonical i))
       = JS.Num v
       ∧ Spec.respell v
         = (fst (Spec.canonical i), snd (Spec.canonical i), octave).
Proof.
  intros Hi. exists (i + (octave + 1) * 12). split.
  - unfold noteToMidi.
    assert (∃ base, JS.or (JS.get noteMap (fst (Spec.canonical i))) 0
                    = JS.Num base
                    ∧ base + snd (Spec.canonical i) = i) as (base & -> & Hb).
    { cases12 i; eexists; (split; [vm_compute; reflexivity|reflexivity]). }
    cbn [JS.add]. f_equal. lia.
  - unfold Spec.respell. rewrite Z.mod_add, Z.div_add by lia.
    rewrite Z.mod_small, Z.div_small by lia. do 2 f_equal. lia.
Qed.

(** ** The instrument table *)

(** A name that the table neither defines nor inherits resolves to 0. *)
Lemma instrumentSemitones_undefined (name : string) :
  INSTRUMENT_TRANSPOSITIONS !! name = None →
  name ∉ JS.inherited →
  instrumentSemitones name = 0.
Proof.
  intros Hname Hin. unfold instrumentSemitones, JS.get.
  rewrite Hname. by rewrite decide_False.
Qed.

(** A name that the table inherits resolves to the inherited member. *)
Lemma instrumentSemitones_inherited (name : string) :
  name ∈ JS.inherited → instrumentSemitones name = JS.Obj.
Proof.
  intros Hin. unfold JS.inherited in Hin.
  repeat (apply elem_of_cons in Hin as [->|Hin]; [reflexivity|]).
  by apply elem_of_nil in Hin.
Qed.

(** With the offset 0, processing a document without negative pitch values
    succeeds and keeps every note. *)
Lemma processDocument_zero_kept {PdfBlob : Type}
    (renderToPDF : Document → PdfBlob) (D : Document) (name : string) :
  instrumentSemitones name = 0 →
  nonnegative D →
  ∃ D', transposeMusicXML D 0 = Ok D'
        ∧ processDocument renderToPDF D name =
            mkResult true (Some D') (Some (renderToPDF D'))
              (Some (generateMIDI D')) None
        ∧ Forall2 noteKept (allNotes D) (allNotes D').
Proof.
  intros Hz (D' & HD' & Hkept)%transposeMusicXML_zero_kept.
  exists D'. unfold processDocument. by rewrite Hz, HD'.
Qed.

Lemma transposeMusicXML_mock_member :
  transposeMusicXML generateMockMusicXML JS.Obj = Throw TypeError.
Proof. vm_compute. reflexivity. Qed.

(** C8. The name "constructor" is not in the instrument table, yet the
    lookup [INSTRUMENT_TRANSPOSITIONS[name] || 0] finds the member that
    every object literal inherits, which is truthy: the offset is that
    function and not 0.  Adding it to a note's value gives a string, the
    decomposition of a string has no step and no alter, and the
    transposition of the recognised document throws, although its
    transposition by 0 returns; [processFile] reports the failure whenever
    the file could be read.  And where the offset does resolve to 0, as for
    "Kazoo", an error is still raised on a document that holds a note below
    MIDI 0 (here C sharp in octave -2, the value -11). *)
Theorem inherited_instrument_name_fails {File PdfBlob : Type}
    (renderToPDF : Document → PdfBlob) (readCompletes : File → bool)
    (file : File) :
  INSTRUMENT_TRANSPOSITIONS !! "constructor" = None
  ∧ instrumentSemitones "constructor" = JS.Obj
  ∧ (∃ D', transposeMusicXML generateMockMusicXML 0 = Ok D')
  ∧ transposeMusicXML generateMockMusicXML (instrumentSemitones "constructor")
    = Throw TypeError
  ∧ processDocument renderToPDF generateMockMusicXML "constructor"
    = mkResult false None None None (Some TypeError)
  ∧ processFile renderToPDF readCompletes file "constructor"
    = (if readCompletes file
       then Some (mkResult false None None None (Some TypeError))
       else None)
  ∧ (let low := mkNote (Some (mkPitch (Some "C") (Some 1) (Some (-2))))
                  4 "quarter" in
     let D := mkDocument "" "" "" [mkMeasure 1 None [low]] in
     INSTRUMENT_TRANSPOSITIONS !! "Kazoo" = None
     ∧ instrumentSemitones "Kazoo" = 0
     ∧ transposeMusicXML D 0 = Throw TypeError
     ∧ processDocument renderToPDF D "Kazoo"
       = mkResult false None None None (Some TypeError)).
Proof.
  assert (instrumentSemitones "constructor" = JS.Obj) as Hobj
    by reflexivity.
  assert (processDocument renderToPDF generateMockMusicXML "constructor"
          = mkResult false None None None (Some TypeError)) as Hdoc.
  { unfold processDocument.
    by rewrite Hobj, transposeMusicXML_mock_member. }
  split; [reflexivity|]. split; [done|].
  split; [eexists; vm_compute; reflexivity|].
  split; [by rewrite Hobj, transposeMusicXML_mock_member|].
  split; [done|]. split.
  { unfold processFile, processPDFToMusicXML.
    destruct (readCompletes file); cbn; [by rewrite Hdoc|done]. }
  cbv zeta. split; [reflexivity|]. split; [reflexivity|].
  split; [vm_compute; reflexivity|].
  unfold processDocument.
  change (instrumentSemitones "Kazoo") with (JS.Num 0).
  by vm_compute transposeMusicXML.
Qed.

(** ** The MIDI encoder *)

Lemma encode_unfold (notes : list Note) :
  encode notes =
    Spec.MThd ++ [0x4D; 0x54; 0x72; 0x6B]
    ++ (JS.toUint8 <$>
          (JS.Num <$> trackLengthBytes (Z.of_nat (length (trackData notes)))))
    ++ (JS.toUint8 <$> trackData notes).
Proof.
  unfold encode, midiData. rewrite fmap_app.
  cbn -[trackLengthBytes trackData]. reflexivity.
Qed.

Lemma band_255 (x : Z) : JS.band x 0xFF = JS.toInt32 x `mod` 256.
Proof.
  unfold JS.band. change (JS.toInt32 0xFF) with (Z.ones 8).
  by rewrite Z.land_ones.
Qed.

(** The four length bytes are the big-endian digits of the length, for
    every length an array can have. *)
Lemma trackLengthBytes_bigEndian (len : Z) :
  0 ≤ len < 2 ^ 32 →
  Spec.bigEndian (JS.toUint8 <$> (JS.Num <$> trackLengthBytes len)) = len.
Proof.
  intros Hlen. unfold trackLengthBytes.
  cbn [fmap list_fmap Spec.bigEndian foldl]. unfold JS.toUint8.
  rewrite !band_255. unfold JS.sar, JS.toInt32.
  rewrite !Z.shiftr_div_pow2 by lia.
  change (2 ^ 31) with 2147483648. change (2 ^ 32) with 4294967296 in *.
  change (2 ^ 24) with 16777216. change (2 ^ 16) with 65536.
  change (2 ^ 8) with 256.
  Z.to_euclidean_division_equations. lia.
Qed.

Lemma encode_ends (notes : list Note) :
  ∃ front, encode notes = front ++ Spec.endOfTrack.
Proof.
  exists (Spec.MThd ++ [0x4D; 0x54; 0x72; 0x6B]
    ++ (JS.toUint8 <$>
          (JS.Num <$> trackLengthBytes (Z.of_nat (length (trackData notes)))))
    ++ (JS.toUint8 <$> flat_map noteEvents notes)).
  rewrite encode_unfold. unfold trackData.
  rewrite fmap_app.
  change (JS.toUint8 <$> (JS.Num <$> [0x00; 0xFF; 0x2F; 0x00]))
    with Spec.endOfTrack.
  by rewrite <- !app_assoc.
Qed.

(** C2. Whatever the note sequence, the output starts with the fourteen
    header bytes 4D 54 68 64 00 00 00 06 00 00 00 01 00 60, then the tag
    MTrk; the four bytes after the tag are, read big-endian, the exact
    number of bytes that follow them to the end of the output (the event
    stream with its end-of-track marker), for every track an array can hold
    (fewer than 2^32 entries); and the output ends with 00 FF 2F 00. *)
Theorem encode_structure (notes : list Note) :
  Z.of_nat (length (trackData notes)) < 2 ^ 32 →
  take 14 (encode notes) = Spec.MThd
  ∧ take 4 (drop 14 (encode notes)) = [0x4D; 0x54; 0x72; 0x6B]
  ∧ drop 22 (encode notes) = JS.toUint8 <$> trackData notes
  ∧ Spec.bigEndian (take 4 (drop 18 (encode notes)))
    = Z.of_nat (length (drop 22 (encode notes)))
  ∧ drop (length (encode notes) - 4) (encode notes) = Spec.endOfTrack.
Proof.
  intros Hlen. rewrite encode_unfold at 1 2 3 4 5.
  split; [reflexivity|]. split; [reflexivity|]. split; [reflexivity|].
  split.
  - change (take 4 (drop 18 _)) with
      (JS.toUint8 <$>
         (JS.Num <$> trackLengthBytes (Z.of_nat (length (trackData notes))))).
    change (drop 22 _) with (JS.toUint8 <$> trackData notes).
    rewrite trackLengthBytes_bigEndian by lia. by rewrite length_fmap.
  - destruct (encode_ends notes) as [front ->].
    rewrite length_app. cbn [length Spec.endOfTrack].
    replace (length front + 4 - 4)%nat with (length front) by lia.
    by rewrite drop_app_length.
Qed.

Lemma encode_structure_witness :
  let notes := [ mkNote (Some (mkPitch (Some "C") None (Some 4))) 4 "quarter";
                 mkNote (Some (mkPitch (Some "D") None (Some 4))) 4 "quarter";
                 mkNote (Some (mkPitch (Some "E") None (Some 4))) 4 "quarter";
                 mkNote (Some (mkPitch (Some "F") None (Some 4))) 4 "quarter" ]
  in
  Z.of_nat (length (trackData notes)) < 2 ^ 32
  ∧ take 14 (encode notes) = Spec.MThd
  ∧ Spec.bigEndian (take 4 (drop 18 (encode notes))) = 40
  ∧ length (drop 22 (encode notes)) = 40%nat.
Proof.
  cbv zeta. split; [by vm_compute|].
  split; [eapply encode_structure; by vm_compute|].
  split; [|reflexivity].
  etransitivity; [eapply encode_structure; by vm_compute|reflexivity].
Defined.

(** ** The events of a note *)

Lemma vlq_480 : Spec.vlq 480 = [0x83; 0x60].
Proof. reflexivity. Qed.


(** The keys of the note table are not names of inherited members. *)
Lemma noteMap_own (step : string) (v : Z) :
  noteMap !! step = Some v → step ∉ JS.inherited.
Proof.
  unfold noteMap. intros Hv.
  repeat (apply lookup_insert_Some in Hv as [[<- _]|[_ Hv]];
          [by apply (bool_decide_unpack _)|]).
  by apply lookup_empty_Some in Hv.
Qed.

(** [noteToMidi] case by case: a string when the step names an inherited
    member, and otherwise the sum, with 0 for a step that is no key. *)
Lemma noteToMidi_cases (step : string) (octave alter : Z) :
  noteToMidi step octave alter =
    if decide (step ∈ JS.inherited) then JS.Str
    else JS.Num ((octave + 1) * 12 + JS.or0 (noteMap !! step) + alter).
Proof.
  unfold noteToMidi, JS.get, JS.or0.
  destruct (noteMap !! step) as [v|] eqn:Hv.
  - rewrite (decide_False (P := step ∈ JS.inherited))
      by (by eapply noteMap_own).
    cbn. by destruct (decide (v = 0)) as [->|].
  - by destruct (decide (step ∈ JS.inherited)).
Qed.



(** ** Durations do not reach the encoder *)

Lemma noteEvents_same_pitch (a b : Note) :
  n_pitch a = n_pitch b → noteEvents a = noteEvents b.
Proof. unfold noteEvents. by intros ->. Qed.

Lemma trackData_same_pitch (xs ys : list Note) :
  Forall2 (λ a b, n_pitch a = n_pitch b) xs ys →
  trackData xs = trackData ys.
Proof.
  intros Hxy. unfold trackData. f_equal.
  induction Hxy as [|a b xs ys Hab _ IH]; cbn; [done|].
  by rewrite IH, (noteEvents_same_pitch a b).
Qed.

(** C10. Two note sequences that agree, note by note and in order, on their
    pitch data are encoded to the same bytes, however their durations and
    types differ; and every pitched note's Note-Off is preceded by the
    two-byte delta-time 83 60 (480 ticks) whatever its duration and type. *)
Theorem encode_ignores_durations (xs ys : list Note) :
  Forall2 (λ a b, n_pitch a = n_pitch b) xs ys →
  encode xs = encode ys
  ∧ ∀ (pitch : Pitch) (duration : Z) (type : string),
      noteEvents (mkNote (Some pitch) duration type) =
        [JS.Num 0x00; JS.Num 0x90; pitchMidi pitch; JS.Num 0x64]
        ++ [JS.Num 0x83; JS.Num 0x60]
        ++ [JS.Num 0x80; pitchMidi pitch; JS.Num 0x00].
Proof.
  intros Hxy. split; [|done].
  unfold encode, midiData. by rewrite (trackData_same_pitch xs ys).
Qed.

Lemma encode_ignores_durations_witness :
  let c4 := mkPitch (Some "C") None (Some 4) in
  let bb4 := mkPitch (Some "B") (Some (-1)) (Some 4) in
  Forall2 (λ a b, n_pitch a = n_pitch b)
    [mkNote (Some c4) 4 "quarter"; mkNote (Some bb4) 8 "half"]
    [mkNote (Some c4) 16 "whole"; mkNote (Some bb4) 1 "sixteenth"]
  ∧ encode [mkNote (Some c4) 4 "quarter"; mkNote (Some bb4) 8 "half"]
    = encode [mkNote (Some c4) 16 "whole"; mkNote (Some bb4) 1 "sixteenth"].
Proof.
  cbv zeta. split; [by repeat constructor|].
  apply encode_ignores_durations. by repeat constructor.
Defined.

(** * Further properties of the transposer *)

(** ** The loop body, case by case *)

Lemma midiToNote_defined (m : Z) :
  0 ≤ m ∨ m `mod` 12 = 0 →
  midiToNote m =
    mkNoteRep (Some (fst (Spec.canonical (m `mod` 12)))) (m `div` 12 - 1)
      (Some (snd (Spec.canonical (m `mod` 12)))).
Proof.
  intros Hm. unfold midiToNote.
  assert (m `rem` 12 = m `mod` 12) as ->
    by (revert Hm; Z.to_euclidean_division_equations; lia).
  destruct (tables_canonical (m `mod` 12)) as [-> ->]; [|done].
  apply Z.mod_pos_bound. lia.
Qed.

Lemma transposePitch_spec (s : Z) (p : Pitch) :
  transposePitch s p =
    if decide (throwsAt s p) then Throw TypeError else Ok (shiftPitch s p).
Proof.
  destruct (decide (complete p)) as [Hc|Hc].
  - destruct (pitchMidi p) as [m| |] eqn:Hv.
    + case_decide as Ht.
      * destruct Ht as (_ & Ht). rewrite Hv in Ht. destruct Ht as [Hneg Hmod].
        by apply (transposePitch_negative s m).
      * assert (0 ≤ m + s ∨ (m + s) `mod` 12 = 0) as Hm.
        { destruct (decide (0 ≤ m + s)); [by left|right].
          destruct (decide ((m + s) `mod` 12 = 0)); [done|].
          exfalso. apply Ht. split; [done|]. rewrite Hv. cbn. lia. }
        rewrite transposePitch_complete by done.
        unfold shiftPitch. rewrite decide_True by done.
        rewrite Hv. cbn [JS.add]. cbv zeta.
        rewrite (midiToNote_defined _ Hm).
        by cbn [rep_step rep_octave rep_alter].
    + rewrite decide_True by (split; [done|by rewrite Hv]).
      apply transposePitch_not_a_number; [done|]. by rewrite Hv.
    + rewrite decide_True by (split; [done|by rewrite Hv]).
      apply transposePitch_not_a_number; [done|]. by rewrite Hv.
  - rewrite decide_False by (by intros [? _]).
    unfold shiftPitch. rewrite decide_False by done.
    by apply transposePitch_incomplete.
Qed.

Lemma transposeNote_spec (s : Z) (n : Note) :
  transposeNote s n =
    if decide (noteThrows s n) then Throw TypeError else Ok (shiftNote s n).
Proof.
  unfold transposeNote, shiftNote.
  destruct (decide (noteThrows s n)) as [Hn|Hn]; unfold noteThrows in Hn;
    destruct (n_pitch n) as [p|] eqn:Hp; cbn in *; try done.
  - rewrite transposePitch_spec. by rewrite decide_True.
  - rewrite transposePitch_spec. by rewrite decide_False.
  - destruct n; cbn in *. by subst.
Qed.

Lemma forEach_transposeNote (s : Z) (ns : list Note) :
  forEach (transposeNote s) ns =
    if decide (Exists (noteThrows s) ns) then Throw TypeError
    else Ok (shiftNote s <$> ns).
Proof.
  induction ns as [|n ns IH]; cbn.
  - rewrite decide_False; [done|]. by inversion 1.
  - rewrite transposeNote_spec, IH. unfold mbind, Res_bind.
    destruct (decide (noteThrows s n)) as [Hn|Hn].
    + rewrite decide_True; [done|]. by left.
    + destruct (decide (Exists (noteThrows s) ns)) as [He|He].
      * rewrite decide_True; [done|]. by right.
      * rewrite decide_False; [done|]. by inversion 1.
Qed.

Lemma transposeMeasure_spec (s : Z) (m : Measure) :
  transposeMeasure s m =
    if decide (Exists (noteThrows s) (m_notes m)) then Throw TypeError
    else Ok (mkMeasure (m_number m) (m_attributes m)
               (shiftNote s <$> m_notes m)).
Proof.
  unfold transposeMeasure. rewrite forEach_transposeNote.
  by case_decide.
Qed.

Lemma forEach_transposeMeasure (s : Z) (ms : list Measure) :
  forEach (transposeMeasure s) ms =
    if decide (Exists (noteThrows s) (flat_map m_notes ms))
    then Throw TypeError
    else Ok ((λ m, mkMeasure (m_number m) (m_attributes m)
                     (shiftNote s <$> m_notes m)) <$> ms).
Proof.
  induction ms as [|m ms IH]; cbn.
  - rewrite decide_False; [done|]. by inversion 1.
  - rewrite transposeMeasure_spec, IH. unfold mbind, Res_bind.
    destruct (decide (Exists (noteThrows s) (m_notes m))) as [Hm|Hm].
    + rewrite decide_True; [done|]. apply Exists_app. by left.
    + destruct (decide (Exists (noteThrows s) (flat_map m_notes ms)))
        as [He|He].
      * rewrite decide_True; [done|]. apply Exists_app. by right.
      * rewrite decide_False; [done|]. by intros [?|?]%Exists_app.
Qed.

(** The whole function: it throws exactly when some note does, and is the
    pure rewriting otherwise. *)
Lemma transposeMusicXML_spec (D : Document) (s : Z) :
  transposeMusicXML D s =
    if decide (Exists (noteThrows s) (allNotes D)) then Throw TypeError
    else Ok (shiftDocument s D).
Proof.
  unfold transposeMusicXML, allNotes. rewrite forEach_transposeMeasure.
  case_decide; [done|]. cbn. unfold shiftDocument. do 2 f_equal.
  rewrite <- list_fmap_compose. by apply list_fmap_ext.
Qed.

(** ** What a successful transposition yields *)

Lemma complete_canonicalPitch (m : Z) : complete (canonicalPitch m).
Proof. unfold complete, canonicalPitch. cbn. split; eauto. Qed.

Lemma pitchShifted_shiftPitch (s : Z) (p : Pitch) :
  ¬ throwsAt s p → pitchShifted s p (shiftPitch s p).
Proof.
  intros Hno. unfold pitchShifted, shiftPitch. case_decide as Hc; [|done].
  destruct (pitchMidi p) as [m| |] eqn:Hv.
  - exists m. split; [done|].
    by rewrite pitchMidi_canonicalPitch, spelling_canonicalPitch.
  - exfalso. apply Hno. split; [done|]. by rewrite Hv.
  - exfalso. apply Hno. split; [done|]. by rewrite Hv.
Qed.

Lemma noteShifted_shiftNote (s : Z) (n : Note) :
  ¬ noteThrows s n → noteShifted s n (shiftNote s n).
Proof.
  unfold noteThrows, noteShifted, shiftNote. cbn. intros Hno.
  split; [done|]. split; [done|].
  destruct (n_pitch n); constructor. by apply pitchShifted_shiftPitch.
Qed.

Lemma notesShifted_shiftNotes (s : Z) (ns : list Note) :
  ¬ Exists (noteThrows s) ns →
  Forall2 (noteShifted s) ns (shiftNote s <$> ns).
Proof.
  intros Hno. apply Forall2_fmap_r, Forall_Forall2_diag, Forall_forall.
  intros n Hn. apply noteShifted_shiftNote. intros Ht. apply Hno.
  apply Exists_exists. eauto.
Qed.

Lemma allNotes_shiftDocument (s : Z) (D : Document) :
  allNotes (shiftDocument s D) = shiftNote s <$> allNotes D.
Proof.
  unfold allNotes, shiftDocument. cbn.
  induction (d_measures D) as [|m ms IH]; cbn; [done|].
  by rewrite fmap_app, IH.
Qed.

Lemma measureFifths_shiftMeasure (s : Z) (m : Measure) :
  measureFifths (shiftMeasure s m)
  = (λ f, transposeKeySignature f s) <$> measureFifths m.
Proof.
  unfold measureFifths, shiftMeasure. cbn.
  destruct (m_attributes m) as [a|]; cbn; [|done].
  unfold transposeAttributes. cbn.
  destruct (a_key a) as [k|]; cbn; [|done].
  unfold transposeKey. destruct (k_fifths k) eqn:Hk; cbn; by rewrite ?Hk.
Qed.

Lemma allFifths_shiftDocument (s : Z) (D : Document) :
  allFifths (shiftDocument s D)
  = (λ f, transposeKeySignature f s) <$> allFifths D.
Proof.
  unfold allFifths, shiftDocument. cbn.
  induction (d_measures D) as [|m ms IH]; cbn; [done|].
  rewrite measureFifths_shiftMeasure, IH.
  by destruct (measureFifths m).
Qed.

(** X1. A transposition that returns has rewritten every note in place:
    duration and type kept; a complete pitch now has the old value plus [s]
    and the canonical spelling of that value; a pitch without step or
    octave is untouched.  Every fifths is the transposed key signature of
    the old one, in the same order. *)
Theorem transposeMusicXML_shifts (D D' : Document) (s : Z) :
  transposeMusicXML D s = Ok D' →
  Forall2 (noteShifted s) (allNotes D) (allNotes D')
  ∧ allFifths D' = (λ f, transposeKeySignature f s) <$> allFifths D.
Proof.
  rewrite transposeMusicXML_spec. case_decide as Hno; [done|]. intros [= <-].
  rewrite allNotes_shiftDocument, allFifths_shiftDocument. split; [|done].
  by apply notesShifted_shiftNotes.
Qed.

Lemma transposeMusicXML_shifts_witness :
  ∃ D', transposeMusicXML generateMockMusicXML 9 = Ok D'
        ∧ Forall2 (noteShifted 9) (allNotes generateMockMusicXML)
            (allNotes D')
        ∧ allFifths D' = [2].
Proof.
  eexists. split; [vm_compute; reflexivity|].
  split; [|reflexivity].
  eapply (transposeMusicXML_shifts generateMockMusicXML _ 9).
  vm_compute; reflexivity.
Defined.

(** The step a pitch is read with names an inherited member exactly when
    the text of its [<step>] does. *)
Lemma pitchMidi_cases (p : Pitch) :
  pitchMidi p =
    let step := textOr (default "" (p_step p)) "C" in
    if decide (step ∈ JS.inherited) then JS.Str
    else JS.Num ((default 4 (p_octave p) + 1) * 12 + JS.or0 (noteMap !! step)
                 + default 0 (p_alter p)).
Proof. unfold pitchMidi. cbv zeta. apply noteToMidi_cases. Qed.

(** X2. The transposition throws exactly when the document holds a note
    whose pitch has both a step and an octave and whose value either is no
    number or, transposed, is below zero and not a multiple of 12.  The
    value of a pitch is no number exactly when the text of its step is the
    name of a member every object inherits. *)
Theorem transposeMusicXML_throws_iff (D : Document) (s : Z) :
  (transposeMusicXML D s = Throw TypeError ↔
   Exists (λ n, ∃ p, n_pitch n = Some p ∧ complete p
                     ∧ (pitchMidi p = JS.Str
                        ∨ ∃ m, pitchMidi p = JS.Num m
                               ∧ m + s < 0 ∧ (m + s) `mod` 12 ≠ 0))
     (allNotes D))
  ∧ ∀ p, pitchMidi p = JS.Str
         ↔ textOr (default "" (p_step p)) "C" ∈ JS.inherited.
Proof.
  split.
  - rewrite transposeMusicXML_spec.
    assert (Exists (noteThrows s) (allNotes D) ↔
            Exists (λ n, ∃ p, n_pitch n = Some p ∧ complete p
                     ∧ (pitchMidi p = JS.Str
                        ∨ ∃ m, pitchMidi p = JS.Num m
                               ∧ m + s < 0 ∧ (m + s) `mod` 12 ≠ 0))
              (allNotes D)) as <-.
    { rewrite !Exists_exists. apply exist_proper. intros n.
      unfold noteThrows, throwsAt.
      destruct (n_pitch n) as [p|]; cbn.
      - split.
        + intros [? [Hc Hb]]. split; [done|]. exists p.
          split; [done|]. split; [done|].
          pose proof (pitchMidi_cases p) as Hv. cbv zeta in Hv.
          destruct (pitchMidi p) as [m| |]; [right; by exists m|by case_decide|by left].
        + intros (? & ? & [= <-] & Hc & Hb). split; [done|]. split; [done|].
          destruct Hb as [->|(m & -> & ?)]; done.
      - split; [by intros [] | by intros (? & ? & ? & ?)]. }
    by case_decide.
  - intros p. rewrite pitchMidi_cases. cbv zeta. by case_decide.
Qed.

Lemma nonnegative_no_throw (D : Document) (s : Z) :
  nonnegative D → 0 ≤ s → ¬ Exists (noteThrows s) (allNotes D).
Proof.
  unfold nonnegative. intros Hnn Hs (n & Hn & Ht)%Exists_exists.
  eapply Forall_forall in Hnn; [|done].
  unfold noteThrows, throwsAt in Ht.
  destruct (n_pitch n) as [p|]; cbn in *; [|done].
  destruct Ht as [_ Ht]. destruct (pitchMidi p); cbn in *; [lia|done..].
Qed.

(** X3. Transposing upwards is safe: on a document whose notes all have a
    value that is a number and not negative, every transposition by
    [s >= 0] returns. *)
Theorem transposeMusicXML_upwards (D : Document) (s : Z) :
  nonnegative D → 0 ≤ s →
  ∃ D', transposeMusicXML D s = Ok D'.
Proof.
  intros Hnn Hs. rewrite transposeMusicXML_spec.
  rewrite decide_False by by apply nonnegative_no_throw.
  by eexists.
Qed.

Lemma transposeMusicXML_upwards_witness :
  nonnegative generateMockMusicXML ∧ 0 ≤ 21
  ∧ ∃ D', transposeMusicXML generateMockMusicXML 21 = Ok D'.
Proof.
  split; [solve_nonnegative|]. split; [lia|].
  apply transposeMusicXML_upwards; [solve_nonnegative | lia].
Defined.

(** ** Transposing twice *)

Lemma shiftPitch_complete (s : Z) (p : Pitch) :
  complete (shiftPitch s p) ↔ complete p.
Proof.
  unfold shiftPitch. case_decide as Hc; [|done].
  destruct (pitchMidi p); [|done..].
  split; [done|]. intros _. apply complete_canonicalPitch.
Qed.

Lemma pitchMidi_shiftPitch (s m : Z) (p : Pitch) :
  complete p → pitchMidi p = JS.Num m →
  pitchMidi (shiftPitch s p) = JS.Num (m + s).
Proof.
  intros Hc Hv. unfold shiftPitch. rewrite decide_True by done.
  rewrite Hv. apply pitchMidi_canonicalPitch.
Qed.

Lemma shiftPitch_incomplete (s : Z) (p : Pitch) :
  ¬ complete p → shiftPitch s p = p.
Proof. intros Hc. unfold shiftPitch. by rewrite decide_False. Qed.

Lemma shiftPitch_shiftPitch (s1 s2 : Z) (p : Pitch) :
  shiftPitch s2 (shiftPitch s1 p) = shiftPitch (s1 + s2) p.
Proof.
  destruct (decide (complete p)) as [Hc|Hc].
  - unfold shiftPitch at 2 3. rewrite !decide_True by done.
    destruct (pitchMidi p) as [m| |] eqn:Hv.
    + unfold shiftPitch.
      rewrite decide_True by apply complete_canonicalPitch.
      rewrite pitchMidi_canonicalPitch. f_equal. lia.
    + unfold shiftPitch. rewrite decide_True by done. by rewrite Hv.
    + unfold shiftPitch. rewrite decide_True by done. by rewrite Hv.
  - rewrite (shiftPitch_incomplete s1 p) by done.
    by rewrite !shiftPitch_incomplete by done.
Qed.

Lemma throwsAt_shiftPitch (s1 s2 : Z) (p : Pitch) :
  throwsAt s2 (shiftPitch s1 p) ↔ throwsAt (s1 + s2) p.
Proof.
  unfold throwsAt. rewrite shiftPitch_complete.
  destruct (decide (complete p)) as [Hc|Hc]; [|by split; intros [? _]].
  assert (badValue s2 (pitchMidi (shiftPitch s1 p))
          ↔ badValue (s1 + s2) (pitchMidi p)) as ->; [|done].
  unfold shiftPitch. rewrite decide_True by done.
  destruct (pitchMidi p) as [m| |] eqn:Hv.
  - rewrite pitchMidi_canonicalPitch. cbn. by rewrite Z.add_assoc.
  - by rewrite Hv.
  - by rewrite Hv.
Qed.

Lemma shiftNote_shiftNote (s1 s2 : Z) (n : Note) :
  shiftNote s2 (shiftNote s1 n) = shiftNote (s1 + s2) n.
Proof.
  unfold shiftNote. cbn. f_equal.
  destruct (n_pitch n); cbn; [|done]. by rewrite shiftPitch_shiftPitch.
Qed.

Lemma noteThrows_shiftNote (s1 s2 : Z) (ns : list Note) :
  Exists (noteThrows s2) (shiftNote s1 <$> ns)
  ↔ Exists (noteThrows (s1 + s2)) ns.
Proof.
  rewrite Exists_fmap. rewrite !Exists_exists. apply exist_proper. intros n.
  unfold noteThrows, shiftNote. cbn.
  destruct (n_pitch n); cbn; [|done]. by rewrite throwsAt_shiftPitch.
Qed.

(** X4. Transpositions compose on the notes: after a transposition by [s1]
    that returned, transposing by [s2] throws exactly when transposing the
    original by [s1 + s2] does, and otherwise yields the same notes. *)
Theorem transposeMusicXML_compose (D D1 : Document) (s1 s2 : Z) :
  transposeMusicXML D s1 = Ok D1 →
  allNotes <$> transposeMusicXML D1 s2
  = allNotes <$> transposeMusicXML D (s1 + s2).
Proof.
  rewrite !transposeMusicXML_spec. case_decide; [done|]. intros [= <-].
  rewrite allNotes_shiftDocument.
  destruct (decide (Exists (noteThrows (s1 + s2)) (allNotes D))) as [He|He].
  - by rewrite decide_True by by apply noteThrows_shiftNote.
  - rewrite decide_False by by rewrite noteThrows_shiftNote.
    cbn -[allNotes]. rewrite !allNotes_shiftDocument. f_equal.
    rewrite <- list_fmap_compose. apply list_fmap_ext.
    intros _ n _. apply shiftNote_shiftNote.
Qed.

Lemma transposeMusicXML_compose_witness :
  ∃ D1, transposeMusicXML generateMockMusicXML 2 = Ok D1
        ∧ allNotes <$> transposeMusicXML D1 7
          = allNotes <$> transposeMusicXML generateMockMusicXML 9.
Proof.
  eexists. split; [vm_compute; reflexivity|].
  apply (transposeMusicXML_compose generateMockMusicXML _ 2 7).
  vm_compute; reflexivity.
Defined.

Lemma noteKept_shiftNote_zero (n : Note) :
  from_option (λ p, isNonnegative (pitchMidi p)) True (n_pitch n) →
  noteKept n (shiftNote 0 n).
Proof.
  unfold noteKept, shiftNote. cbn. intros Hn. split; [done|]. split; [done|].
  destruct (n_pitch n) as [p|]; constructor. cbn in Hn.
  unfold pitchKept, shiftPitch. case_decide as Hc; [|done].
  destruct (pitchMidi p) as [m| |] eqn:Hv; try done.
  rewrite Z.add_0_r, pitchMidi_canonicalPitch, spelling_canonicalPitch.
  split; [done|]. split; [intros _; by exists m|]. by intros m' [= <-] ->.
Qed.

(** X5. Round trip on values: on a document whose notes all have a value
    that is a number and not negative, a transposition by [s] that returned can be undone
    by [-s]: it returns, and every note has the value it had at the start
    (in canonical spelling), with its duration and type. *)
Theorem transposeMusicXML_round_trip (D D1 : Document) (s : Z) :
  nonnegative D →
  transposeMusicXML D s = Ok D1 →
  ∃ D2, transposeMusicXML D1 (- s) = Ok D2
        ∧ Forall2 noteKept (allNotes D) (allNotes D2).
Proof.
  intros Hnn. rewrite !transposeMusicXML_spec.
  case_decide; [done|]. intros [= <-].
  rewrite decide_False; cycle 1.
  { rewrite allNotes_shiftDocument, noteThrows_shiftNote, Z.add_opp_diag_r.
    by apply nonnegative_no_throw. }
  eexists. split; [done|]. rewrite !allNotes_shiftDocument.
  rewrite <- list_fmap_compose.
  apply Forall2_fmap_r, Forall_Forall2_diag.
  eapply Forall_impl; [exact Hnn|]. intros n Hn.
  cbn. rewrite shiftNote_shiftNote, Z.add_opp_diag_r.
  by apply noteKept_shiftNote_zero.
Qed.

Lemma transposeMusicXML_round_trip_witness :
  nonnegative generateMockMusicXML
  ∧ ∃ D1 D2, transposeMusicXML generateMockMusicXML 9 = Ok D1
             ∧ transposeMusicXML D1 (-9) = Ok D2
             ∧ Forall2 noteKept (allNotes generateMockMusicXML)
                 (allNotes D2).
Proof.
  split; [solve_nonnegative|].
  eexists. 
  destruct (transposeMusicXML_round_trip generateMockMusicXML
              (shiftDocument 9 generateMockMusicXML) 9) as (D2 & H2 & Hk).
  - solve_nonnegative.
  - vm_compute; reflexivity.
  - exists D2. split; [vm_compute; reflexivity|]. split; [|exact Hk].
    exact H2.
Defined.

(** ** Key signatures *)

Lemma transposeKeySignature_range (f s : Z) :
  -7 ≤ transposeKeySignature f s ≤ 7.
Proof. rewrite transposeKeySignature_delta. unfold Spec.clamp. lia. Qed.

Lemma transposeKeySignature_zero (f : Z) :
  -7 ≤ f ≤ 7 → transposeKeySignature f 0 = f.
Proof.
  intros Hf. rewrite transposeKeySignature_delta.
  change (Spec.fifthsDelta (0 `mod` 12)) with 0. unfold Spec.clamp. lia.
Qed.

(** X6. The key transposition only sees the pitch class of the offset:
    offsets that differ by whole octaves give the same key signature. *)
Theorem transposeKeySignature_periodic (f s k : Z) :
  transposeKeySignature f (s + 12 * k) = transposeKeySignature f s.
Proof.
  rewrite !transposeKeySignature_delta.
  by rewrite (Z.mul_comm 12 k), Z.mod_add.
Qed.

(** X7. Whole octaves leave a key signature in [-7, 7] unchanged. *)
Theorem transposeKeySignature_octaves (f k : Z) :
  -7 ≤ f ≤ 7 → transposeKeySignature f (12 * k) = f.
Proof.
  intros Hf. rewrite transposeKeySignature_delta.
  rewrite (Z.mul_comm 12 k), Z.mod_mul by lia.
  change (Spec.fifthsDelta 0) with 0. unfold Spec.clamp. lia.
Qed.

Lemma transposeKeySignature_octaves_witness :
  -7 ≤ -1 ≤ 7 ∧ transposeKeySignature (-1) (12 * 2) = -1.
Proof. split; [lia | apply transposeKeySignature_octaves; lia]. Defined.

Lemma neg_mod12 (s : Z) : (- s) `mod` 12 = (12 - s `mod` 12) `mod` 12.
Proof. Z.to_euclidean_division_equations. lia. Qed.

(** X8. Key round trip: when the offset's pitch class is none of 1, 6, 11
    and the key stays inside [-7, 7] on the way, transposing the key by [s]
    and then by [-s] gives the key back. *)
Theorem transposeKeySignature_round_trip (f s : Z) :
  -7 ≤ f ≤ 7 →
  s `mod` 12 ≠ 1 → s `mod` 12 ≠ 6 → s `mod` 12 ≠ 11 →
  -7 ≤ f + JS.or0 (semitoneToFifthsMap !! (s `mod` 12)) ≤ 7 →
  transposeKeySignature (transposeKeySignature f s) (- s) = f.
Proof.
  intros Hf H1 H6 H11.
  pose proof (Z.mod_pos_bound s 12 ltac:(lia)) as Hi.
  rewrite fifthsChange_table by done. intros Hin.
  rewrite !transposeKeySignature_delta, neg_mod12.
  revert Hi H1 H6 H11 Hin. generalize (s `mod` 12). intros i Hi H1 H6 H11.
  cases12 i; try done; vm_compute Spec.fifthsDelta;
    unfold Spec.clamp; lia.
Qed.

Lemma transposeKeySignature_round_trip_witness :
  transposeKeySignature (transposeKeySignature (-1) 9) (-9) = -1.
Proof.
  apply transposeKeySignature_round_trip; by vm_compute.
Defined.

(** ** Transposed documents are fixed by the transposition by zero *)

Lemma transposeAttributes_zero (s : Z) (a : Attributes) :
  transposeAttributes 0 (transposeAttributes s a) = transposeAttributes s a.
Proof.
  unfold transposeAttributes. cbn. f_equal.
  destruct (a_key a) as [k|]; cbn; [|done]. f_equal.
  unfold transposeKey. destruct (k_fifths k) eqn:Hk; cbn; [|by rewrite Hk].
  by rewrite transposeKeySignature_zero
    by apply transposeKeySignature_range.
Qed.

Lemma shiftMeasure_zero (s : Z) (m : Measure) :
  shiftMeasure 0 (shiftMeasure s m) = shiftMeasure s m.
Proof.
  unfold shiftMeasure. cbn. f_equal.
  - destruct (m_attributes m); cbn; [|done].
    by rewrite transposeAttributes_zero.
  - rewrite <- list_fmap_compose. apply list_fmap_ext. intros _ n _. cbn.
    by rewrite shiftNote_shiftNote, Z.add_0_r.
Qed.

(** X9. The identity holds on transposed documents: whatever document a
    transposition returned, transposing it by 0 returns that very
    document. *)
Theorem transposeMusicXML_zero_fixes_output (D D1 : Document) (s : Z) :
  transposeMusicXML D s = Ok D1 → transposeMusicXML D1 0 = Ok D1.
Proof.
  rewrite !transposeMusicXML_spec. case_decide as Hs; [done|].
  intros [= <-]. rewrite decide_False; cycle 1.
  { by rewrite allNotes_shiftDocument, noteThrows_shiftNote, Z.add_0_r. }
  f_equal. unfold shiftDocument. cbn. f_equal.
  rewrite <- list_fmap_compose. apply list_fmap_ext. intros _ m _.
  apply shiftMeasure_zero.
Qed.

Lemma transposeMusicXML_zero_fixes_output_witness :
  ∃ D1, transposeMusicXML generateMockMusicXML 14 = Ok D1
        ∧ transposeMusicXML D1 0 = Ok D1.
Proof.
  eexists. split; [vm_compute; reflexivity|].
  apply (transposeMusicXML_zero_fixes_output generateMockMusicXML _ 14).
  vm_compute; reflexivity.
Defined.

(** * Further properties of the encoder *)

Lemma noteEvents_bytes (notes : list Note) :
  JS.toUint8 <$> flat_map noteEvents notes
  = flat_map noteBytes (noteNumbers notes).
Proof.
  unfold noteNumbers. induction notes as [|n notes IH]; cbn; [done|].
  rewrite fmap_app, IH. unfold noteEvents.
  by destruct (n_pitch n).
Qed.

Lemma length_noteBytes (bs : list Z) :
  length (flat_map noteBytes bs) = (9 * length bs)%nat.
Proof. induction bs as [|b bs IH]; cbn in *; [done|]. lia. Qed.

Lemma encode_noteNumbers (notes : list Note) :
  encode notes =
    Spec.MThd ++ [0x4D; 0x54; 0x72; 0x6B]
    ++ (JS.toUint8 <$>
          (JS.Num <$> trackLengthBytes
                        (Z.of_nat (9 * length (noteNumbers notes) + 4))))
    ++ flat_map noteBytes (noteNumbers notes) ++ Spec.endOfTrack.
Proof.
  rewrite encode_unfold. unfold trackData.
  rewrite fmap_app, noteEvents_bytes. do 4 f_equal.
  rewrite length_app, <- (length_fmap JS.toUint8), noteEvents_bytes.
  rewrite length_fmap. cbn [length]. by rewrite length_noteBytes.
Qed.

Lemma noteBytes_inj (xs ys : list Z) :
  flat_map noteBytes xs = flat_map noteBytes ys → xs = ys.
Proof.
  revert ys. induction xs as [|x xs IH]; intros [|y ys]; cbn; try done.
  intros [= -> H]. f_equal. by apply IH.
Qed.

Lemma length_encode (notes : list Note) :
  length (encode notes) = (26 + 9 * length (omap n_pitch notes))%nat.
Proof.
  rewrite encode_noteNumbers, !length_app, !length_fmap, length_noteBytes.
  unfold noteNumbers. rewrite length_fmap. cbn. lia.
Qed.

(** X10. The blob has 26 bytes plus 9 for every note that has a pitch
    (notes without one leave no trace), and each of its elements is a byte. *)
Theorem encode_length (notes : list Note) :
  length (encode notes) = (26 + 9 * length (omap n_pitch notes))%nat
  ∧ Forall (λ b, 0 ≤ b < 256) (encode notes).
Proof.
  split; [apply length_encode|].
  unfold encode. apply Forall_fmap, Forall_forall. intros v _.
  destruct v as [z| |]; cbn; [apply Z.mod_pos_bound|..]; lia.
Qed.

(** X11. The blob determines, and is determined by, the sequence of number
    bytes: two note sequences are encoded alike exactly when their pitched
    notes have, in order, the same number byte, which is the value
    [noteToMidi] computes modulo 256, and 0 when that value is a string. *)
Theorem encode_inj (xs ys : list Note) :
  encode xs = encode ys ↔ noteNumbers xs = noteNumbers ys.
Proof.
  rewrite !encode_noteNumbers. split.
  - intros H. apply app_inv_head in H. apply (app_inv_head [_; _; _; _]) in H.
    apply app_inj_1 in H as [_ H]; [|done].
    apply app_inv_tail in H. by apply noteBytes_inj.
  - by intros ->.
Qed.

(** * The pipeline *)

Lemma omap_pitch_shiftNote (s : Z) (ns : list Note) :
  omap n_pitch (shiftNote s <$> ns) = shiftPitch s <$> omap n_pitch ns.
Proof.
  induction ns as [|n ns IH]; cbn; [done|]. rewrite IH.
  by destruct (n_pitch n).
Qed.

(** X12. Transposer and encoder compose: the MIDI of a transposed document
    has the length of the MIDI of the original, and when every pitch of the
    original has a step and an octave, its note numbers are those of the
    original plus [s] (modulo 256), in the same order. *)
Theorem generateMIDI_transposed (D D' : Document) (s : Z) :
  transposeMusicXML D s = Ok D' →
  length (generateMIDI D') = length (generateMIDI D)
  ∧ (allComplete D →
     noteNumbers (allNotes D')
     = (λ b, JS.toUint8 (b + s)) <$> noteNumbers (allNotes D)).
Proof.
  rewrite transposeMusicXML_spec. case_decide as Hno; [done|].
  intros [= <-]. unfold generateMIDI, noteNumbers.
  rewrite allNotes_shiftDocument, omap_pitch_shiftNote. split.
  - by rewrite !length_encode, omap_pitch_shiftNote, length_fmap.
  - unfold allComplete. intros Hc. rewrite <- !list_fmap_compose.
    apply not_Exists_Forall in Hno; [|intros n; apply _].
    induction Hc as [|n ns Hn _ IH]; [done|].
    apply Forall_cons in Hno as [Hn' Hns]. cbn.
    unfold noteThrows in Hn'. cbn in Hn'.
    destruct (n_pitch n) as [p|]; [|by apply IH]. cbn in *.
    rewrite IH by done. f_equal.
    destruct (pitchMidi p) as [m| |] eqn:Hv;
      [|exfalso; apply Hn'; split; [done|by rewrite Hv]..].
    rewrite (pitchMidi_shiftPitch s m p) by done.
    cbn. by rewrite Zplus_mod_idemp_l.
Qed.

Lemma generateMIDI_transposed_witness :
  ∃ D', transposeMusicXML generateMockMusicXML 2 = Ok D'
        ∧ length (generateMIDI D') = length (generateMIDI generateMockMusicXML)
        ∧ noteNumbers (allNotes D')
          = (λ b, JS.toUint8 (b + 2))
              <$> noteNumbers (allNotes generateMockMusicXML).
Proof.
  exists (shiftDocument 2 generateMockMusicXML).
  split; [vm_compute; reflexivity|].
  destruct (generateMIDI_transposed generateMockMusicXML
              (shiftDocument 2 generateMockMusicXML) 2) as [Hl Hn];
    [vm_compute; reflexivity|].
  split; [exact Hl|]. apply Hn.
  unfold allComplete. apply Forall_forall. intros n Hn'.
  vm_compute allNotes in Hn'.
  repeat (apply elem_of_cons in Hn' as [->|Hn']; [cbn; split; eauto|]).
  by apply elem_of_nil in Hn'.
Defined.

(** ** processFile never fails *)

(** Unfolds the lookup of a name in a map written as a chain of inserts. *)
Ltac lookup_cases name :=
  repeat (rewrite lookup_insert; case_decide; [subst name|]);
  rewrite ?lookup_empty.

Lemma instrumentSemitones_range (name : string) (v : Z) :
  INSTRUMENT_TRANSPOSITIONS !! name = Some v →
  instrumentSemitones name = JS.Num v ∧ 0 ≤ v ≤ 21.
Proof.
  intros Hv. split.
  - unfold instrumentSemitones, JS.get. rewrite Hv. cbn.
    by destruct (decide (v = 0)) as [->|].
  - revert Hv. unfold INSTRUMENT_TRANSPOSITIONS.
    lookup_cases name; intros [= <-]; lia.
Qed.

(** X13. [processFile] succeeds for every instrument the table defines and
    every file whose read completes: the semitone count is the table's
    entry, between 0 and 21; the transposition of the recognition result
    returns; the result carries the transposed document (every note's value
    raised by the semitone count, the key transposed from one flat), its
    rendering, and a MIDI blob of 296 bytes.  For a file whose read does not
    complete the promise never settles. *)
Theorem processFile_succeeds {File PdfBlob : Type}
    (renderToPDF : Document → PdfBlob) (readCompletes : File → bool)
    (file : File) (name : string) :
  is_Some (INSTRUMENT_TRANSPOSITIONS !! name) →
  ∃ (s : Z) (D' : Document),
    INSTRUMENT_TRANSPOSITIONS !! name = Some s
    ∧ instrumentSemitones name = JS.Num s
    ∧ 0 ≤ s ≤ 21
    ∧ transposeMusicXML generateMockMusicXML s = Ok D'
    ∧ processFile renderToPDF readCompletes file name =
        (if readCompletes file
         then Some (mkResult true (Some D') (Some (renderToPDF D'))
                      (Some (generateMIDI D')) None)
         else None)
    ∧ Forall2 (noteShifted s) (allNotes generateMockMusicXML) (allNotes D')
    ∧ allFifths D' = [transposeKeySignature (-1) s]
    ∧ length (generateMIDI D') = 296%nat.
Proof.
  intros [v Hv].
  destruct (instrumentSemitones_range name v Hv) as [Hs Hr].
  assert (¬ Exists (noteThrows v) (allNotes generateMockMusicXML)) as Hno
    by (apply nonnegative_no_throw; [apply mock_nonnegative | lia]).
  assert (transposeMusicXML generateMockMusicXML v
          = Ok (shiftDocument v generateMockMusicXML)) as HD.
  { rewrite transposeMusicXML_spec. by rewrite decide_False. }
  exists v, (shiftDocument v generateMockMusicXML).
  split; [done|]. split; [done|]. split; [done|]. split; [done|].
  split; [|split; [|split]].
  - assert (processDocument renderToPDF generateMockMusicXML name
            = mkResult true (Some (shiftDocument v generateMockMusicXML))
                (Some (renderToPDF (shiftDocument v generateMockMusicXML)))
                (Some (generateMIDI (shiftDocument v generateMockMusicXML)))
                None) as Hdoc
      by (unfold processDocument; by rewrite Hs, HD).
    unfold processFile, processPDFToMusicXML.
    destruct (readCompletes file); cbn; [by rewrite Hdoc|done].
  - rewrite allNotes_shiftDocument. by apply notesShifted_shiftNotes.
  - by rewrite allFifths_shiftDocument.
  - unfold generateMIDI.
    by rewrite length_encode, allNotes_shiftDocument, omap_pitch_shiftNote,
      length_fmap.
Qed.

Lemma processFile_succeeds_witness :
  is_Some (INSTRUMENT_TRANSPOSITIONS !! "Eb Alto Saxophone")
  ∧ instrumentSemitones "Eb Alto Saxophone" = 9
  ∧ (success <$> processFile (File := unit) (λ _ : Document, tt)
                   (λ _, true) tt "Eb Alto Saxophone") = Some true.
Proof.
  assert (is_Some (INSTRUMENT_TRANSPOSITIONS !! "Eb Alto Saxophone")) as Hd
    by (eexists; vm_compute; reflexivity).
  split; [exact Hd|]. split; [reflexivity|].
  destruct (processFile_succeeds (File := unit) (λ _ : Document, tt)
              (λ _, true) tt "Eb Alto Saxophone" Hd)
    as (s & D' & _ & _ & _ & _ & -> & _).
  reflexivity.
Defined.

(** X21. An instrument name that the table neither defines nor inherits is
    processed with the offset 0: processing any document whose notes all
    have a value that is a number and not negative succeeds and keeps every
    note's value, duration and type (a complete pitch in the canonical
    spelling of its value); so does [processFile] on the recognised
    document, for every file whose read completes. *)
Theorem undefined_instrument_is_zero {File PdfBlob : Type}
    (renderToPDF : Document → PdfBlob) (readCompletes : File → bool)
    (file : File) (name : string) :
  INSTRUMENT_TRANSPOSITIONS !! name = None →
  name ∉ JS.inherited →
  instrumentSemitones name = 0
  ∧ (∀ D, nonnegative D → ∃ D',
        transposeMusicXML D 0 = Ok D'
        ∧ processDocument renderToPDF D name =
            mkResult true (Some D') (Some (renderToPDF D'))
              (Some (generateMIDI D')) None
        ∧ Forall2 noteKept (allNotes D) (allNotes D'))
  ∧ ∃ D', transposeMusicXML generateMockMusicXML 0 = Ok D'
          ∧ processFile renderToPDF readCompletes file name =
              (if readCompletes file
               then Some (mkResult true (Some D') (Some (renderToPDF D'))
                            (Some (generateMIDI D')) None)
               else None)
          ∧ Forall2 noteKept (allNotes generateMockMusicXML) (allNotes D').
Proof.
  intros Hname Hin.
  pose proof (instrumentSemitones_undefined name Hname Hin) as Hz.
  split; [done|]. split.
  - intros D HD. by apply processDocument_zero_kept.
  - destruct (processDocument_zero_kept renderToPDF generateMockMusicXML
                name Hz mock_nonnegative) as (D' & HD' & Hdoc & Hk).
    exists D'. split; [done|]. split; [|done].
    unfold processFile, processPDFToMusicXML.
    destruct (readCompletes file); cbn; [by rewrite Hdoc|done].
Qed.

Lemma undefined_instrument_is_zero_witness :
  INSTRUMENT_TRANSPOSITIONS !! "Kazoo" = None
  ∧ ("Kazoo" ∉ JS.inherited)
  ∧ instrumentSemitones "Kazoo" = 0
  ∧ (success <$> processFile (File := unit) (λ _ : Document, tt)
                   (λ _, true) tt "Kazoo") = Some true.
Proof.
  assert ("Kazoo" ∉ JS.inherited) as Hin by (by apply (bool_decide_unpack _)).
  split; [reflexivity|]. split; [exact Hin|].
  destruct (undefined_instrument_is_zero (File := unit) (λ _ : Document, tt)
              (λ _, true) tt "Kazoo" eq_refl Hin) as (Hz & _ & D' & _ & Hp & _).
  split; [exact Hz|]. by rewrite Hp.
Defined.

(** ** The selector and the table *)

(** X14. The selector offers exactly the instruments the table defines:
    a name can be selected if and only if [INSTRUMENT_TRANSPOSITIONS] has an
    entry for it, so a selected instrument never takes the fallback. *)
Theorem selectable_iff_defined (name : string) :
  name ∈ selectableInstruments
  ↔ is_Some (INSTRUMENT_TRANSPOSITIONS !! name).
Proof.
  split.
  - intros Hin. vm_compute selectableInstruments in Hin.
    repeat (apply elem_of_cons in Hin as [->|Hin];
            [eexists; vm_compute; reflexivity|]).
    by apply elem_of_nil in Hin.
  - unfold INSTRUMENT_TRANSPOSITIONS.
    lookup_cases name;
      try solve [intros _; vm_compute selectableInstruments;
        repeat first [apply list_elem_of_here | apply list_elem_of_further]].
    by intros [? ?].
Qed.

(** * The MusicXML generator *)

Lemma isStep_steps (c : ascii) :
  Generator.isStep c = true → String c EmptyString ∈ Spec.steps.
Proof.
  destruct c as [[] [] [] [] [] [] [] []]; cbn; try discriminate; intros _;
    unfold Spec.steps;
    repeat first [apply list_elem_of_here | apply list_elem_of_further].
Qed.

Lemma steps_noteMap (st : string) :
  st ∈ Spec.steps →
  (st ∉ JS.inherited) ∧ 0 ≤ JS.or0 (noteMap !! st) ≤ 11.
Proof.
  unfold Spec.steps. intros Hin.
  repeat (apply elem_of_cons in Hin as [->|Hin];
          [split; [by apply (bool_decide_unpack _)|by vm_compute]|]).
  by apply elem_of_nil in Hin.
Qed.

Lemma digitsValue_nonneg (acc : Z) (ds : string) :
  0 ≤ acc → 0 ≤ Generator.digitsValue acc ds.
Proof.
  revert acc. induction ds as [|c ds IH]; intros acc Hacc; cbn; [done|].
  apply IH. unfold Generator.digitValue. case_decide; cbn; lia.
Qed.

Lemma matchHere_step (s : string) (c : ascii) (acc ds : string) :
  Generator.matchHere s = Some (c, acc, ds) → Generator.isStep c = true.
Proof.
  unfold Generator.matchHere. destruct s as [|c' rest]; [done|].
  destruct (Generator.isStep c') eqn:Hc; [|done].
  destruct rest as [|a rest']; [done|].
  destruct (Generator.isAccidental a);
    [destruct (Generator.digitPrefix rest')
    |destruct (Generator.digitPrefix (String a rest'))];
    try done; by intros [= <- _ _].
Qed.

Lemma search_step (s : string) (c : ascii) (acc ds : string) :
  Generator.search s = Some (c, acc, ds) → Generator.isStep c = true.
Proof.
  induction s as [|c' rest IH]; cbn -[Generator.matchHere].
  - done.
  - destruct (Generator.matchHere (String c' rest)) as [[[c1 a1] d1]|] eqn:Hm.
    + intros [= <- _ _]. by eapply matchHere_step.
    + apply IH.
Qed.

Lemma parsePitch_bounds (pitch : string) :
  let r := Generator.parsePitch pitch in
  Generator.step r ∈ Spec.steps
  ∧ -1 ≤ Generator.alter r ≤ 1
  ∧ 0 ≤ Generator.octave r
  ∧ ∃ m, noteToMidi (Generator.step r) (Generator.octave r)
           (Generator.alter r) = JS.Num m
         ∧ 11 ≤ m.
Proof.
  cbv zeta.
  assert (Generator.step (Generator.parsePitch pitch) ∈ Spec.steps
          ∧ -1 ≤ Generator.alter (Generator.parsePitch pitch) ≤ 1
          ∧ 0 ≤ Generator.octave (Generator.parsePitch pitch))
    as (Hst & Hal & Hoc).
  { unfold Generator.parsePitch.
    destruct (Generator.search pitch) as [[[c acc] ds]|] eqn:Hs.
    - apply search_step in Hs. cbn.
      pose proof (isStep_steps c Hs).
      pose proof (digitsValue_nonneg 0 ds ltac:(lia)).
      repeat case_decide; repeat split; try done; lia.
    - cbn. repeat split; try lia. unfold Spec.steps.
      repeat first [apply list_elem_of_here | apply list_elem_of_further]. }
  split; [done|]. split; [done|]. split; [done|].
  destruct (steps_noteMap _ Hst) as [Hni Hbase].
  rewrite noteToMidi_cases, decide_False by done.
  eexists. split; [done|]. lia.
Qed.

(** X15. Whatever string it is given, [parsePitch] answers a step among
    A to G, an alter of -1, 0 or 1 and an octave that is not negative; the
    MIDI value of such a pitch is a number, at least 11. *)
Theorem parsePitch_range (pitch : string) :
  let r := Generator.parsePitch pitch in
  Generator.step r ∈ Spec.steps
  ∧ -1 ≤ Generator.alter r ≤ 1
  ∧ 0 ≤ Generator.octave r
  ∧ ∃ m, noteToMidi (Generator.step r) (Generator.octave r)
           (Generator.alter r) = JS.Num m
         ∧ 11 ≤ m.
Proof. apply parsePitch_bounds. Qed.

Lemma digit_not_accidental (c : ascii) :
  is_Some (Generator.digitValue c) → Generator.isAccidental c = false.
Proof.
  intros [v Hv]. unfold Generator.digitValue in Hv.
  case_decide as Hcode; [|done]. clear Hv.
  destruct c as [[] [] [] [] [] [] [] []]; try reflexivity;
    vm_compute in Hcode; by destruct Hcode.
Qed.

Lemma digitPrefix_app (ds rest : string) :
  Generator.digitPrefix ds = ds → Generator.digitPrefix rest = EmptyString →
  Generator.digitPrefix (ds +:+ rest) = ds.
Proof.
  intros Hds Hrest. induction ds as [|d ds IH]; [done|].
  change (String d ds +:+ rest) with (String d (ds +:+ rest)).
  cbn [Generator.digitPrefix] in *.
  destruct (Generator.digitValue d); [|done].
  injection Hds as Hds. f_equal. by apply IH.
Qed.

(** X16. A pitch name that starts with a letter A to G, an optional [#] or
    [b], and at least one digit is parsed to that letter, that accidental
    (+1 for [#], -1 for [b], 0 for none) and the decimal value of the whole
    run of digits, whatever follows the digits. *)
Theorem parsePitch_name (c : ascii) (acc ds rest : string) :
  Generator.isStep c = true →
  acc = EmptyString ∨ acc = "#" ∨ acc = "b" →
  ds ≠ EmptyString → Generator.digitPrefix ds = ds →
  Generator.digitPrefix rest = EmptyString →
  Generator.parsePitch (String c (acc +:+ ds +:+ rest)) =
    Generator.mkParsed (String c EmptyString) (Generator.digitsValue 0 ds)
      (if decide (acc = "#") then 1
       else if decide (acc = "b") then -1 else 0).
Proof.
  intros Hc Hacc Hne Hds Hrest.
  pose proof (digitPrefix_app ds rest Hds Hrest) as Happ.
  assert (Generator.matchHere (String c (acc +:+ ds +:+ rest))
          = Some (c, acc, ds)) as Hm.
  { unfold Generator.matchHere. rewrite Hc.
    destruct Hacc as [->|[->| ->]].
    - destruct ds as [|d ds']; [done|].
      change ("" +:+ String d ds' +:+ rest)
        with (String d (ds' +:+ rest)) in *.
      change (String d ds' +:+ rest) with (String d (ds' +:+ rest)) in *.
      cbv beta iota.
      rewrite digit_not_accidental; [by rewrite Happ|].
      cbn in Hds. destruct (Generator.digitValue d); [by eexists|done].
    - change ("#" +:+ ds +:+ rest) with (String "#" (ds +:+ rest)).
      cbv beta iota. cbn [Generator.isAccidental]. rewrite Happ. by destruct ds.
    - change ("b" +:+ ds +:+ rest) with (String "b" (ds +:+ rest)).
      cbv beta iota. cbn [Generator.isAccidental]. rewrite Happ. by destruct ds. }
  unfold Generator.parsePitch.
  assert (Generator.search (String c (acc +:+ ds +:+ rest))
          = Some (c, acc, ds)) as ->; [|done].
  cbn -[Generator.matchHere]. by rewrite Hm.
Qed.

Lemma parsePitch_name_witness :
  Generator.parsePitch "Bb4" = Generator.mkParsed "B" 4 (-1).
Proof.
  apply (parsePitch_name "B" "b" "4" EmptyString); by vm_compute || auto.
Defined.

(** X17. What the generator writes, the processor reads: the pitch element
    written for a note is read back with exactly the step, alter and octave
    that [parsePitch] answered, its value is a number, and transposing it by
    any [s >= -11] returns a pitch whose value is the written value plus
    [s]. *)
Theorem notePitch_read_back (pitch : string) (s : Z) :
  -11 ≤ s →
  let r := Generator.parsePitch pitch in
  spelling (Generator.notePitch pitch)
    = (Generator.step r, Generator.alter r, Generator.octave r)
  ∧ pitchMidi (Generator.notePitch pitch)
    = noteToMidi (Generator.step r) (Generator.octave r) (Generator.alter r)
  ∧ ∃ m p', pitchMidi (Generator.notePitch pitch) = JS.Num m
            ∧ transposePitch s (Generator.notePitch pitch) = Ok p'
            ∧ pitchMidi p' = JS.Num (m + s).
Proof.
  intros Hs. cbv zeta. set (r := Generator.parsePitch pitch).
  assert (textOr (Generator.step r) "C" = Generator.step r) as Hstep.
  { subst r. unfold Generator.parsePitch.
    by destruct (Generator.search pitch) as [[[c acc] ds]|]. }
  assert (default 0 (if decide (Generator.alter r ≠ 0)
                     then Some (Generator.alter r) else None)
          = Generator.alter r) as Halt.
  { case_decide as Ha; [done|]. cbn.
    destruct (decide (Generator.alter r = 0)); [done|]. by destruct Ha. }
  assert (spelling (Generator.notePitch pitch)
          = (Generator.step r, Generator.alter r, Generator.octave r)) as Hsp.
  { unfold spelling, Generator.notePitch. fold r.
    cbn [p_step p_alter p_octave]. rewrite Halt.
    cbn [default from_option id]. by rewrite Hstep. }
  assert (pitchMidi (Generator.notePitch pitch)
          = noteToMidi (Generator.step r) (Generator.octave r)
              (Generator.alter r)) as Hv.
  { unfold pitchMidi, Generator.notePitch. fold r.
    cbn [p_step p_alter p_octave]. rewrite Halt.
    cbn [default from_option id]. by rewrite Hstep. }
  split; [done|]. split; [done|].
  destruct (parsePitch_bounds pitch) as (_ & _ & _ & m & Hm & Hr).
  fold r in Hm. rewrite <- Hv in Hm.
  destruct (transposePitch_value s m (Generator.notePitch pitch))
    as (p' & Hp & Hp'); [|done|lia|by exists m, p'].
  unfold complete, Generator.notePitch. cbn. split; eauto.
Qed.

Lemma notePitch_read_back_witness :
  -11 ≤ -11
  ∧ spelling (Generator.notePitch "Bb4") = ("B", -1, 4)
  ∧ ∃ p', transposePitch (-11) (Generator.notePitch "Bb4") = Ok p'
          ∧ pitchMidi p' = 59.
Proof.
  split; [lia|].
  destruct (notePitch_read_back "Bb4" (-11) ltac:(lia))
    as (Hsp & _ & m & p' & Hm & Hp & Hv).
  split; [exact Hsp|]. exists p'. split; [exact Hp|].
  rewrite Hv. vm_compute in Hm. by injection Hm as <-.
Defined.

(** X18. For a key name and a duration name that are not names of members
    every object inherits, the generator's two lookups stay in range: the
    key maps to a number of fifths in [-7, 7] (an unknown name to 0), which
    a transposition by 0 leaves unchanged, and the duration to one of 1, 2,
    4, 8, 16 ticks (an unknown name to 4).  For each of the inherited names
    both lookups return the inherited member, which is no number. *)
Theorem generator_lookups_range (key duration : string) :
  key ∉ JS.inherited → duration ∉ JS.inherited →
  (∃ f, Generator.keyToFifths key = JS.Num f
        ∧ -7 ≤ f ≤ 7
        ∧ transposeKeySignature f 0 = f)
  ∧ (∃ t, Generator.durationToTicks duration = JS.Num t
          ∧ t ∈ [16; 8; 4; 2; 1])
  ∧ Forall (λ name, Generator.keyToFifths name = JS.Obj
                    ∧ Generator.durationToTicks name = JS.Obj)
      JS.inherited.
Proof.
  intros Hk Hd. split; [|split].
  - unfold Generator.keyToFifths, JS.get, Generator.keyMap.
    lookup_cases key; rewrite ?decide_False by done;
      eexists; (split; [vm_compute; reflexivity|]);
      (split; [lia|by vm_compute]).
  - unfold Generator.durationToTicks, JS.get, Generator.durationMap.
    lookup_cases duration; rewrite ?decide_False by done;
      eexists; (split; [vm_compute; reflexivity|]);
      repeat first [apply list_elem_of_here | apply list_elem_of_further].
  - apply Forall_forall. intros name Hin. unfold JS.inherited in Hin.
    repeat (apply elem_of_cons in Hin as [->|Hin]; [by split|]).
    by apply elem_of_nil in Hin.
Qed.

Lemma generator_lookups_range_witness :
  Generator.keyToFifths "Bb" = -2
  ∧ Generator.durationToTicks "half" = 8
  ∧ Generator.keyToFifths "constructor" = JS.Obj.
Proof.
  destruct (generator_lookups_range "Bb" "half")
    as ((f & Hf & _) & (t & Ht & _) & Hin);
    [by apply (bool_decide_unpack _)..|].
  split; [|split].
  - rewrite Hf. vm_compute in Hf. by injection Hf as <-.
  - rewrite Ht. vm_compute in Ht. by injection Ht as <-.
  - apply Forall_inv in Hin. apply Hin.
Defined.

(** * Edge cases of the pitch arithmetic *)

Lemma noteToMidi_unknown_step (st : string) (oc al : Z) :
  noteMap !! st = None → st ∉ JS.inherited →
  noteToMidi (textOr st "C") oc al = noteToMidi "C" oc al.
Proof.
  intros Hst Hin. unfold textOr. case_decide; [done|].
  rewrite !noteToMidi_cases. rewrite decide_False by done.
  rewrite decide_False by (by apply (bool_decide_unpack _)).
  by rewrite Hst.
Qed.

Lemma noteToMidi_inherited_step (st : string) (oc al : Z) :
  st ∈ JS.inherited → noteToMidi (textOr st "C") oc al = JS.Str.
Proof.
  intros Hin. unfold textOr. rewrite decide_False.
  - rewrite noteToMidi_cases. by rewrite decide_True.
  - intros ->. revert Hin. by apply (bool_decide_unpack _).
Qed.

(** X19. A step text that is neither one of the seven letters nor the name
    of a member every object inherits (the empty text included) is read as
    C: the encoder gives the note the number it would give with step C, and
    the transposer rewrites a pitch that has an octave exactly as it would
    with step C.  A step text that is the name of an inherited member gives
    the pitch a value that is no number: the blob stores the number byte 0,
    and the transposer throws on the pitch, whatever the offset. *)
Theorem unknown_step_is_C (st : string) (al : option Z)
    (oc s duration : Z) (type : string) :
  noteMap !! st = None →
  let p := mkPitch (Some st) al (Some oc) in
  let c := mkPitch (Some "C") al (Some oc) in
  if decide (st ∈ JS.inherited) then
    pitchMidi p = JS.Str
    ∧ JS.toUint8 <$> noteEvents (mkNote (Some p) duration type) = noteBytes 0
    ∧ transposePitch s p = Throw TypeError
  else
    pitchMidi p = pitchMidi c
    ∧ noteEvents (mkNote (Some p) duration type)
      = noteEvents (mkNote (Some c) duration type)
    ∧ transposePitch s p = transposePitch s c.
Proof.
  intros Hst. cbv zeta. case_decide as Hin.
  - assert (pitchMidi (mkPitch (Some st) al (Some oc)) = JS.Str) as Hv.
    { unfold pitchMidi. cbn [p_step p_alter p_octave default from_option id].
      by apply noteToMidi_inherited_step. }
    split; [done|]. split.
    + unfold noteEvents. cbn [n_pitch]. by rewrite Hv.
    + apply transposePitch_not_a_number; [|by rewrite Hv].
      split; cbn; eauto.
  - assert (pitchMidi (mkPitch (Some st) al (Some oc))
            = pitchMidi (mkPitch (Some "C") al (Some oc))) as Hv.
    { unfold pitchMidi. cbn [p_step p_alter p_octave default from_option id].
      by rewrite noteToMidi_unknown_step. }
    split; [done|]. split.
    + unfold noteEvents. cbn [n_pitch]. by rewrite Hv.
    + unfold transposePitch. cbn [p_step p_alter p_octave].
      by rewrite noteToMidi_unknown_step.
Qed.

Lemma unknown_step_is_C_witness :
  transposePitch 2 (mkPitch (Some "H") None (Some 4))
  = Ok (mkPitch (Some "D") None (Some 4))
  ∧ transposePitch 2 (mkPitch (Some "toString") None (Some 4))
    = Throw TypeError.
Proof.
  split.
  - pose proof (unknown_step_is_C "H" None 4 2 4 "quarter") as H.
    cbv zeta in H. rewrite decide_False in H by (by apply (bool_decide_unpack _)).
    destruct H as (_ & _ & ->); reflexivity.
  - pose proof (unknown_step_is_C "toString" None 4 2 4 "quarter") as H.
    cbv zeta in H. rewrite decide_True in H by (by apply (bool_decide_unpack _)).
    destruct H as (_ & _ & ->); reflexivity.
Defined.

Lemma canonicalPitch_octaves (m k : Z) :
  octavesApart k (canonicalPitch m) (canonicalPitch (m + 12 * k)).
Proof.
  unfold octavesApart, canonicalPitch. cbn.
  rewrite (Z.mul_comm 12 k), Z.mod_add, Z.div_add by lia.
  repeat split. f_equal. lia.
Qed.

(** X20. Octaves only move the octave: when every pitch of the document has
    a step and an octave and the transpositions by [s] and by [s + 12 k]
    both return, the two results have, note by note, the same step and the
    same alter, with octaves [k] apart, and the same key signatures. *)
Theorem transposeMusicXML_octaves (D D1 D2 : Document) (s k : Z) :
  allComplete D →
  transposeMusicXML D s = Ok D1 →
  transposeMusicXML D (s + 12 * k) = Ok D2 →
  Forall2 (octavesApart k) (omap n_pitch (allNotes D1))
    (omap n_pitch (allNotes D2))
  ∧ allFifths D2 = allFifths D1.
Proof.
  intros Hc. rewrite !transposeMusicXML_spec.
  case_decide as H1; [done|]. intros [= <-].
  case_decide as H2; [done|]. intros [= <-]. clear H2.
  rewrite !allNotes_shiftDocument, !allFifths_shiftDocument,
    !omap_pitch_shiftNote. split.
  - apply Forall2_fmap, Forall_Forall2_diag.
    unfold allComplete in Hc.
    apply not_Exists_Forall in H1; [|intros n; apply _].
    induction Hc as [|n ns Hn _ IH]; cbn; [constructor|].
    apply Forall_cons in H1 as [Hn1 H1].
    unfold noteThrows in Hn1. cbn in Hn1.
    destruct (n_pitch n) as [p|]; cbn in *; [|by apply IH].
    constructor; [|by apply IH].
    unfold shiftPitch. rewrite !decide_True by done.
    destruct (pitchMidi p) as [m| |] eqn:Hv;
      [|exfalso; apply Hn1; split; [done|by rewrite ?Hv]..].
    rewrite Z.add_assoc. apply canonicalPitch_octaves.
  - apply list_fmap_ext. intros _ f _.
    rewrite !transposeKeySignature_delta.
    by rewrite (Z.mul_comm 12 k), Z.mod_add.
Qed.

Lemma transposeMusicXML_octaves_witness :
  ∃ D1 D2, transposeMusicXML generateMockMusicXML 2 = Ok D1
           ∧ transposeMusicXML generateMockMusicXML 14 = Ok D2
           ∧ Forall2 (octavesApart 1) (omap n_pitch (allNotes D1))
               (omap n_pitch (allNotes D2))
           ∧ allFifths D2 = allFifths D1.
Proof.
  exists (shiftDocument 2 generateMockMusicXML),
         (shiftDocument 14 generateMockMusicXML).
  split; [vm_compute; reflexivity|]. split; [vm_compute; reflexivity|].
  apply (transposeMusicXML_octaves generateMockMusicXML _ _ 2 1).
  - unfold allComplete. apply Forall_forall. intros n Hn.
    vm_compute allNotes in Hn.
    repeat (apply elem_of_cons in Hn as [->|Hn]; [cbn; split; eauto|]).
    by apply elem_of_nil in Hn.
  - vm_compute; reflexivity.
  - vm_compute; reflexivity.
Defined.
